(** * dext: query dispatch, ranking and the item-details cache

    A shallow embedding of [handleQueryCommand] and
    [handleItemDetailsRequest] of [app/main/index.js], and the properties
    of the launcher's routing, ranking and caching that follow from it;
    then the window handlers of the same file ([repositionWindow],
    [handleWindowShow], [handleWindowHide]) and [execute].

    The string methods [trim] and [toLowerCase], which depend on the
    engine's Unicode tables, are parameters (class [Engine]); the
    examples run with their ASCII versions.  Numbers returned by the
    scorer are modelled by rationals (the scorer
    returns finite numbers; the handler only compares them). *)

From Stdlib Require Import ZArith QArith Qminmax Qround Lqa List String Ascii Bool Lia.
From Stdlib Require Import Sorting.Sorted Sorting.Permutation.
From stdpp Require Import base option gmap strings.

Import ListNotations.
Local Open Scope string_scope.
Local Open Scope list_scope.

(** ** JavaScript built-ins used by the handlers *)

Module JS.

(** [s.split(' ')]: the pieces between single spaces; never empty. *)
Fixpoint split (s : string) : list string :=
  match s with
  | EmptyString => [EmptyString]
  | String c s' =>
      if Ascii.eqb c " "%char then EmptyString :: split s'
      else match split s' with
           | [] => [String c EmptyString]
           | w :: ws => String c w :: ws
           end
  end.

(** [a.join(' ')]. *)
Definition join (a : list string) : string := String.concat " " a.

(** [a.reduce(f)] without an initial value: a TypeError ([None]) on the
    empty array, otherwise the left fold seeded with the first element. *)
Definition reduce {A} (f : A -> A -> A) (a : list A) : option A :=
  match a with
  | [] => None
  | x :: r => Some (fold_left f r x)
  end.

(** [a.concat(b)]. *)
Definition concat {A} (a b : list A) : list A := a ++ b.

(** [a.slice(0, n)]. *)
Definition slice0 {A} (n : nat) (a : list A) : list A := firstn n a.

(** [a.filter(p)] with a predicate that may throw ([None]); the
    predicate is called on the elements from left to right. *)
Fixpoint filter {A} (p : A -> option bool) (a : list A) : option (list A) :=
  match a with
  | [] => Some []
  | x :: r =>
      match p x with
      | None => None
      | Some b =>
          match filter p r with
          | None => None
          | Some r' => Some (if b then x :: r' else r')
          end
      end
  end.

(** [a.sort(cmp)]: ECMAScript requires the sort to be stable and to
    place [x] before [y] when [cmp(x, y) < 0]; modelled by an insertion
    sort that keeps an element in front of the later ones it does not
    have to follow.  The comparator may throw ([None]). *)
Section Sort.
Context {A : Type} (cmp : A -> A -> option Z).

Fixpoint insert (x : A) (l : list A) : option (list A) :=
  match l with
  | [] => Some [x]
  | y :: l' =>
      match cmp x y with
      | None => None
      | Some c =>
          if (c <=? 0)%Z then Some (x :: y :: l')
          else match insert x l' with
               | None => None
               | Some r => Some (y :: r)
               end
      end
  end.

Fixpoint sort (a : list A) : option (list A) :=
  match a with
  | [] => Some []
  | x :: r =>
      match sort r with
      | None => None
      | Some s => insert x s
      end
  end.
End Sort.

End JS.

(** The string methods of the JavaScript engine that depend on the
    Unicode tables: [String_trim s] is [s.trim()] and
    [String_toLowerCase s] is [s.toLowerCase()].  The handlers are
    modelled, and their properties proved, for whatever these methods
    compute. *)
Class Engine := {
  String_trim : string -> string;
  String_toLowerCase : string -> string
}.

(** ** Data model *)

(** A plugin descriptor; [keyword] is optional. *)
Record Plugin := mkPlugin {
  path : string;
  name : string;
  isCore : bool;
  keyword : option string
}.

(** A result item; [title] and [plugin] may be missing from the object. *)
Record Item := mkItem {
  title : option string;
  arg : string;
  plugin : option Plugin
}.

(** Truthiness of [p.keyword]: absent and the empty string are falsy. *)
Definition truthy (k : option string) : bool :=
  match k with
  | Some s => negb (String.eqb s EmptyString)
  | None => false
  end.

(** [keyword === p.keyword]. *)
Definition strictEq (kw : string) (k : option string) : bool :=
  match k with
  | Some s => String.eqb kw s
  | None => false
  end.

(** ** Routing in [handleQueryCommand] *)

Section QueryEngine.
Context {engine : Engine}.

(** One entry pushed on [results]: the provider call that produced it. *)
Inductive Call :=
| queryHelper (p : Plugin) (kw : string)
| queryResults (p : Plugin) (args : list string).

(** The two values of [display]. *)
Inductive Display := helper | results_.

Section Routing.
Variable queryPhrase : string.

Definition fractions : list string := JS.split queryPhrase.
Definition keywordOf : string := hd EmptyString fractions.
Definition args : list string := tl fractions.
Definition queryString : string := String_trim (JS.join args).

(** The filter predicate of [matchedPlugins], which both branches
    test again. *)
Definition matchesKeyword (p : Plugin) : bool :=
  negb (truthy (keyword p)) || strictEq keywordOf (keyword p).

Definition matchedPlugins (plugins : list Plugin) : list Plugin :=
  List.filter matchesKeyword plugins.

Definition display (p : Plugin) : Display :=
  if isCore p && matchesKeyword p then results_
  else if truthy (keyword p) && Nat.eqb (String.length queryString) 0 then helper
  else results_.

Definition dispatch (p : Plugin) : Call :=
  match display p with
  | helper => queryHelper p keywordOf
  | results_ =>
      if negb (truthy (keyword p)) then queryResults p fractions
      else queryResults p args
  end.

Definition coreFallback (p : Plugin) : list Call :=
  if isCore p && matchesKeyword p then [queryResults p fractions] else [].

(** The provider calls of one query, in the order they are issued. *)
Definition route (plugins : list Plugin) : list Call :=
  if negb (Nat.eqb (List.length (matchedPlugins plugins)) 0)
  then List.map dispatch (matchedPlugins plugins)
  else List.flat_map coreFallback plugins.
End Routing.

(** ** Providers and the promise join *)

(** How the promise returned by a provider settles. *)
Inductive Settled :=
| Resolved (items : list Item)
| Rejected.

(** What a provider call does: return a promise, or throw. *)
Inductive Provided :=
| Returned (s : Settled)
| Threw.

(** [Promise.all(results).then(k)]: [k] runs on the resolved values, in
    the order of [results], only when every promise resolves. *)
Fixpoint Promise_all (results : list Settled) : option (list (list Item)) :=
  match results with
  | [] => Some []
  | Rejected :: _ => None
  | Resolved items :: r =>
      match Promise_all r with
      | None => None
      | Some vs => Some (items :: vs)
      end
  end.

(** What one run of the query handler did: the provider calls it made
    and the message it sent on [IPC_QUERY_RESULTS], if any. *)
Record QueryRun := mkQueryRun {
  invoked : list Call;
  delivered : option (list Item)
}.

Section QueryHandler.
(** [String.prototype.score], installed by the [string_score] package:
    [score t w] is [t.score(w)]. *)
Variable score : string -> string -> Q.
(** [MAX_RESULTS] of [app/constants]. *)
Variable MAX_RESULTS : nat.
(** The behaviour of [queryResults] and [queryHelper] of [./plugins]. *)
Variable provider : Call -> Provided.

Section Ranking.
Variable kw : string.

(** [i.title.toLowerCase().score(keyword)]; a TypeError when the
    title is missing. *)
Definition titleScore (i : Item) : option Q :=
  match title i with
  | None => None
  | Some t => Some (score (String_toLowerCase t) kw)
  end.

(** The comparator handed to [sort]. *)
Definition compareScore (a b : Item) : option Z :=
  match titleScore a with
  | None => None
  | Some scoreA =>
      match titleScore b with
      | None => None
      | Some scoreB =>
          Some (if Qeq_bool scoreA scoreB then 0%Z
                else if negb (Qle_bool scoreB scoreA) then 1%Z
                else (-1)%Z)
      end
  end.

(** The predicate handed to [filter]: [Boolean(score)] is false
    exactly on a zero score. *)
Definition keepItem (i : Item) : option bool :=
  match titleScore i with
  | None => None
  | Some s =>
      Some (if negb (Qeq_bool s 0) then negb (Qle_bool s (1 # 4)) else true)
  end.

(** The body of the [then] callback up to [retval]. *)
Definition rank (resultSet : list (list Item)) : option (list Item) :=
  match JS.reduce JS.concat resultSet with
  | None => None
  | Some merged =>
      match JS.sort compareScore merged with
      | None => None
      | Some sorted =>
          match JS.filter keepItem sorted with
          | None => None
          | Some kept => Some (JS.slice0 MAX_RESULTS kept)
          end
      end
  end.
End Ranking.

(** The [forEach] loops: the calls are made in order and a call that
    throws ends the handler. *)
Fixpoint issue (cs : list Call) : list Call * option (list Settled) :=
  match cs with
  | [] => ([], Some [])
  | c :: cs' =>
      match provider c with
      | Threw => ([c], None)
      | Returned s =>
          let '(made, ps) := issue cs' in
          (c :: made,
           match ps with
           | None => None
           | Some r => Some (s :: r)
           end)
      end
  end.

(** [retval || []]: an array is truthy, so the operand is kept. *)
Definition orEmpty (retval : list Item) : list Item := retval.

Definition handleQueryCommand (queryPhrase : string) (plugins : list Plugin)
  : QueryRun :=
  let '(made, promises) := issue (route queryPhrase plugins) in
  mkQueryRun made
    match promises with
    | None => None
    | Some results =>
        match Promise_all results with
        | None => None
        | Some resultSet =>
            match rank (keywordOf queryPhrase) resultSet with
            | None => None
            | Some retval => Some (orEmpty retval)
            end
        end
    end.
End QueryHandler.
End QueryEngine.

(** ** The item-details cache *)

(** Modelled from the spec: the class [CacheConf] of [utils/CacheConf] is
    not among the sources.  It is the persistent key-value cache with
    [has(key)], [get(key)] and [set(key, value)] per namespace: one map
    from keys to stored strings for every [configName], without expiry. *)
Module CacheConf.
Abbreviation store := (gmap string (gmap string string)).

Definition entry (st : store) (configName key : string) : option string :=
  match st !! configName with
  | Some m => m !! key
  | None => None
  end.

Definition has (st : store) (configName key : string) : bool :=
  match entry st configName key with
  | Some _ => true
  | None => false
  end.

(** [get] is only called on a key that [has] reports. *)
Definition get (st : store) (configName key : string) : string :=
  match entry st configName key with
  | Some v => v
  | None => EmptyString
  end.

Definition set (st : store) (configName key value : string) : store :=
  <[configName := <[key := value]> (default ∅ (st !! configName))]> st.
End CacheConf.

(** What [retrieveItemDetails] does when it is called: hand back the
    content (at once or through a promise), hand back a promise that
    rejects, or throw. *)
Inductive Detail :=
| Content (html : string)
| Failed
| Raised.

(** The observable effects of the detail handler. *)
Inductive Event :=
| Retrieved (item : Item)
| CacheSet (configName key html : string)
| Sent (html : string).

(** A [then] callback waiting to run: its [cacheConf], its [cacheKey] and
    the value [html] its promise resolves to. *)
Record Reaction := mkReaction {
  r_configName : string;
  r_cacheKey : string;
  r_html : string
}.

Record State := mkState {
  cache : CacheConf.store;
  pending : list Reaction;
  trace : list Event
}.

Section DetailHandler.
(** [JSON.stringify] on items and [path.basename]. *)
Variable JSON_stringify : Item -> string.
Variable basename : string -> string.

Definition configNameOf (p : Plugin) : string :=
  basename (path p) ++ "-itemDetails".

(** The synchronous part of [handleItemDetailsRequest]; [d] is what the
    plugin's detail entry point does if it is called. *)
Definition handleItemDetailsRequest (item : Item) (d : Detail) (s : State)
  : State :=
  match plugin item with
  | None => s
  | Some p =>
      let configName := configNameOf p in
      let cacheKey := JSON_stringify item in
      if CacheConf.has (cache s) configName cacheKey then
        let content := CacheConf.get (cache s) configName cacheKey in
        mkState (cache s)
                (pending s ++ [mkReaction configName cacheKey content])
                (trace s)
      else
        match d with
        | Content html =>
            mkState (cache s)
                    (pending s ++ [mkReaction configName cacheKey html])
                    (trace s ++ [Retrieved item])
        | Failed | Raised =>
            mkState (cache s) (pending s) (trace s ++ [Retrieved item])
        end
  end.

(** The [then] callback: store, then send. *)
Definition react (r : Reaction) (s : State) : State :=
  mkState (CacheConf.set (cache s) (r_configName r) (r_cacheKey r) (r_html r))
          (pending s)
          (trace s ++ [CacheSet (r_configName r) (r_cacheKey r) (r_html r);
                       Sent (r_html r)]).

Fixpoint remove_nth {A} (n : nat) (l : list A) : list A :=
  match l, n with
  | [], _ => []
  | _ :: r, O => r
  | x :: r, S n' => x :: remove_nth n' r
  end.

(** What can happen next: a detail request arrives, or the [n]-th
    waiting callback runs. *)
Inductive Label :=
| Request (item : Item) (d : Detail)
| Settle (n : nat).

Definition step (s : State) (l : Label) : State :=
  match l with
  | Request item d => handleItemDetailsRequest item d s
  | Settle n =>
      match nth_error (pending s) n with
      | None => s
      | Some r =>
          react r (mkState (cache s) (remove_nth n (pending s)) (trace s))
      end
  end.

Definition run (s : State) (ls : list Label) : State := fold_left step ls s.
End DetailHandler.

(** ** The window: geometry, shortcuts and item execution *)

Definition WINDOW_DEFAULT_WIDTH : Z := 700.
Definition WINDOW_DEFAULT_HEIGHT : Z := 80.
Definition WINDOW_MIN_HEIGHT : Z := 80.
Definition WINDOW_MAX_HEIGHT : Z := 710.

(** The fields of an Electron display that [repositionWindow] reads:
    [size.width], [size.height], [bounds.x] and [bounds.y]. *)
Record Screen := mkScreen {
  size_width : Z;
  size_height : Z;
  bounds_x : Z;
  bounds_y : Z
}.

(** [repositionWindow]: the arguments of [win.setPosition], computed from
    the display nearest to the cursor and from [win.getSize()].  The
    halves are rationals and [Math.floor] is [Qfloor]. *)
Definition repositionWindow (currScreen : Screen) (size : Z * Z) : Z * Z :=
  let resultsHeight := WINDOW_MAX_HEIGHT in
  ((Qfloor (inject_Z (size_width currScreen) / 2 - inject_Z (fst size) / 2)
    + bounds_x currScreen)%Z,
   (Qfloor (inject_Z (size_height currScreen) / 2
            - inject_Z (snd size + resultsHeight) / 2)
    + bounds_y currScreen)%Z).

(** The callbacks bound to global shortcuts. *)
Inductive Handler :=
| selectPreviousItem
| selectNextItem
| executeCurrentItem
| hideWindow
| copyItem
| toggleMainWindow.

(** Electron's [globalShortcut]: the accelerators bound at the moment.
    [register] binds a free accelerator and fails silently on a taken
    one; [unregister] frees it. *)
Module globalShortcut.
Abbreviation registry := (gmap string Handler).

Definition register (accelerator : string) (callback : Handler)
  (reg : registry) : registry :=
  match reg !! accelerator with
  | Some _ => reg
  | None => <[accelerator := callback]> reg
  end.

Definition unregister (accelerator : string) (reg : registry) : registry :=
  delete accelerator reg.
End globalShortcut.

(** The messages the window handlers send to the renderer. *)
Inductive Channel :=
| IPC_WINDOW_SHOW
| IPC_WINDOW_HIDE.

(** [handleWindowShow] and [handleWindowHide]: the registry after the
    calls and the message sent. *)
Definition handleWindowShow (reg : globalShortcut.registry)
  : globalShortcut.registry * Channel :=
  (globalShortcut.register "cmd+c" copyItem
     (globalShortcut.register "escape" hideWindow
        (globalShortcut.register "super+enter" executeCurrentItem
           (globalShortcut.register "alt+enter" executeCurrentItem
              (globalShortcut.register "enter" executeCurrentItem
                 (globalShortcut.register "down" selectNextItem
                    (globalShortcut.register "up" selectPreviousItem reg)))))),
   IPC_WINDOW_SHOW).

Definition handleWindowHide (reg : globalShortcut.registry)
  : globalShortcut.registry * Channel :=
  (globalShortcut.unregister "cmd+c"
     (globalShortcut.unregister "escape"
        (globalShortcut.unregister "super+enter"
           (globalShortcut.unregister "alt+enter"
              (globalShortcut.unregister "enter"
                 (globalShortcut.unregister "down"
                    (globalShortcut.unregister "up" reg)))))),
   IPC_WINDOW_HIDE).

(** The message of [IPC_EXECUTE_ITEM] as [execute] reads it: [m_cmdArg]
    and [m_altArg] are what [getOwnProp] finds at [item.mods.cmd.arg] and
    [item.mods.alt.arg], [m_itemArg] is [item.arg]; [None] is an absent
    value. *)
Record ExecuteMessage := mkExecuteMessage {
  m_action : string;
  m_isSuperMod : bool;
  m_isAltMod : bool;
  m_cmdArg : option string;
  m_altArg : option string;
  m_itemArg : option string
}.

(** [c && a] with a boolean [c]; a falsy outcome other than a string is
    [None]. *)
Definition andValue (c : bool) (a : option string) : option string :=
  if c then a else None.

(** [a || b]. *)
Definition orValue (a b : option string) : option string :=
  if truthy a then a else b.

(** The [arg] that [execute] resolves. *)
Definition resolveArg (message : ExecuteMessage) : option string :=
  orValue
    (orValue (andValue (m_isSuperMod message) (m_cmdArg message))
             (andValue (m_isAltMod message) (m_altArg message)))
    (m_itemArg message).

(** [execute]: the action called and the argument it gets, if the name
    is one of [actions]. *)
Definition execute (actions : gset string) (message : ExecuteMessage)
  : option (string * option string) :=
  let arg := resolveArg message in
  if bool_decide (m_action message ∈ actions)
  then Some (m_action message, arg)
  else None.

(** ** Vocabulary of the statements *)

Section Words.
Context {engine : Engine}.

(** The items a call contributes when its promise resolves. *)
Definition itemsOf (provider : Call -> Provided) (c : Call) : list Item :=
  match provider c with
  | Returned (Resolved items) => items
  | _ => []
  end.

(** The concatenated provider output of a query. *)
Definition aggregated (provider : Call -> Provided) (q : string)
  (ps : list Plugin) : list Item :=
  List.concat (List.map (itemsOf provider) (route q ps)).

Section Vocabulary.
Variable score : string -> string -> Q.
Variable kw : string.

(** [a] may stand before [b]: both have a score and [b]'s is not the
    larger. *)
Definition precedes (a b : Item) : Prop :=
  exists sa sb, titleScore score kw a = Some sa /\
                titleScore score kw b = Some sb /\ (sb <= sa)%Q.

(** The item has a score, equal to [v]. *)
Definition hasScore (v : Q) (i : Item) : bool :=
  match titleScore score kw i with
  | Some s => Qeq_bool s v
  | None => false
  end.

(** The item's score is exactly 0 or strictly greater than 0.25. *)
Definition passesFilter (i : Item) : Prop :=
  exists s, titleScore score kw i = Some s /\ (s == 0 \/ 1 # 4 < s)%Q.

(** [passesFilter] as the handler computes it. *)
Definition kept (i : Item) : bool :=
  match keepItem score kw i with
  | Some b => b
  | None => false
  end.
End Vocabulary.

(** What the filter decides for the items of score [v]. *)
Definition keptAt (v : Q) : bool :=
  if negb (Qeq_bool v 0) then negb (Qle_bool v (1 # 4)) else true.

(** A waiting callback that, if it belongs to the key [k] of the
    configuration [c], carries the content [v]. *)
Definition agrees (c k v : string) (r : Reaction) : Prop :=
  r_configName r = c -> r_cacheKey r = k -> r_html r = v.

(** Two items that differ at most in the letter case of their titles. *)
Definition sameButTitleCase (a b : Item) : Prop :=
  arg a = arg b /\ plugin a = plugin b /\
  option_Forall2 (fun t u => String_toLowerCase t = String_toLowerCase u)
                 (title a) (title b).

(** The plugin a call goes to. *)
Definition callee (c : Call) : Plugin :=
  match c with
  | queryHelper p _ => p
  | queryResults p _ => p
  end.

(** The promise of the call resolves. *)
Definition resolves (provider : Call -> Provided) (c : Call) : Prop :=
  exists items, provider c = Returned (Resolved items).

(** The token contains a space. *)
Fixpoint hasSpace (s : string) : bool :=
  match s with
  | EmptyString => false
  | String c s' => Ascii.eqb c " "%char || hasSpace s'
  end.

Definition isSent (e : Event) : bool :=
  match e with Sent _ => true | _ => false end.

Definition isRetrieved (e : Event) : bool :=
  match e with Retrieved _ => true | _ => false end.

Definition isRequest (l : Label) : bool :=
  match l with Request _ _ => true | Settle _ => false end.

(** Every response in the trace directly follows the write of its own
    content. *)
Fixpoint answered (t : list Event) : bool :=
  match t with
  | [] => true
  | Retrieved _ :: r => answered r
  | CacheSet _ _ h :: Sent h' :: r => String.eqb h h' && answered r
  | _ => false
  end.

(** Among the requests [ls], one for the key [k] of the configuration
    [c] had its plugin return the content [v]. *)
Definition offered (JSON_stringify : Item -> string)
  (basename : string -> string) (ls : list Label) (c k v : string) : Prop :=
  exists item p,
    In (Request item (Content v)) ls /\ plugin item = Some p /\
    configNameOf basename p = c /\ JSON_stringify item = k.

(** Every cached content and every content waiting in a callback
    satisfies [P]. *)
Definition sourced (P : string -> string -> string -> Prop) (s : State) : Prop :=
  (forall c k v, CacheConf.entry (cache s) c k = Some v -> P c k v) /\
  Forall (fun r => P (r_configName r) (r_cacheKey r) (r_html r)) (pending s).

(** The accelerators that belong to the visible window. *)
Definition windowShortcuts : list string :=
  ["up"; "down"; "enter"; "alt+enter"; "super+enter"; "escape"; "cmd+c"].

(** The state of a freshly started application: nothing cached, nothing
    waiting, nothing done. *)
Definition initial : State := mkState ∅ [] [].

End Words.

(** ** Sample registry, engine and scorer used by the examples *)

(** A sample engine: [trim] and [toLowerCase] as they act on ASCII
    strings. *)
Module Sample.
Definition isWhiteSpace (c : ascii) : bool :=
  let n := nat_of_ascii c in
  Nat.eqb n 32 || (Nat.leb 9 n && Nat.leb n 13).

Fixpoint trimStart (s : string) : string :=
  match s with
  | EmptyString => EmptyString
  | String c s' => if isWhiteSpace c then trimStart s' else s
  end.

Fixpoint trimEnd (s : string) : string :=
  match s with
  | EmptyString => EmptyString
  | String c s' =>
      match trimEnd s' with
      | EmptyString => if isWhiteSpace c then EmptyString else String c EmptyString
      | r => String c r
      end
  end.

(** [s.trim()] on ASCII strings. *)
Definition trim (s : string) : string := trimEnd (trimStart s).

Definition lowerChar (c : ascii) : ascii :=
  let n := nat_of_ascii c in
  if Nat.leb 65 n && Nat.leb n 90 then ascii_of_nat (n + 32) else c.

(** [s.toLowerCase()] on ASCII strings. *)
Fixpoint toLowerCase (s : string) : string :=
  match s with
  | EmptyString => EmptyString
  | String c s' => String (lowerChar c) (toLowerCase s')
  end.

End Sample.

Definition asciiEngine : Engine :=
  {| String_trim := Sample.trim; String_toLowerCase := Sample.toLowerCase |}.

Definition calc : Plugin := mkPlugin "/plugins/calc" "calc" false (Some "calc").
Definition coreCalc : Plugin := mkPlugin "/core/calc" "calc" true (Some "calc").
Definition coreApps : Plugin := mkPlugin "/core/apps" "apps" true None.

(** A scorer for the examples: 1 on an exact match, 0 otherwise. *)
Definition exactScore (t w : string) : Q := if String.eqb t w then 1%Q else 0%Q.

Definition entryOf (p : Plugin) (t : string) : Item := mkItem (Some t) t (Some p).

(** An item whose [title] is missing. *)
Definition untitled : Item := mkItem None "x" (Some coreApps).

(** Providers for the examples: every call resolves to the same two
    entries; every call resolves to one entry and an untitled item;
    [queryResults] resolves to three entries of its plugin while
    [queryHelper] rejects. *)
Definition twoEntries (c : Call) : Provided :=
  Returned (Resolved [entryOf coreApps "a"; entryOf coreApps "b"]).

Definition oneUntitled (c : Call) : Provided :=
  Returned (Resolved [entryOf coreApps "apps"; untitled]).

Definition helperRejects (c : Call) : Provided :=
  match c with
  | queryHelper _ _ => Returned Rejected
  | queryResults p _ =>
      Returned (Resolved [entryOf p "a"; entryOf p "Calc"; entryOf p "b"])
  end.

(** For the detail examples the serialized key of an entry is its [arg]
    and [basename] leaves the path as it is. *)
Definition keyOfArg (i : Item) : string := arg i.
Definition wholePath (p : string) : string := p.

(** A first request for "2+2" on the empty cache, and the state once its
    callback has run. *)
Definition asked22 : State :=
  handleItemDetailsRequest keyOfArg wholePath (entryOf calc "2+2")
    (Content "<b>4</b>") (mkState ∅ [] []).

Definition stored22 : State := step keyOfArg wholePath asked22 (Settle 0).

(** * Properties *)

Section Proofs.
Context {engine : Engine}.

(** ** The built-ins on examples *)

Example split_tokens : JS.split "calc 2+2" = ["calc"; "2+2"].
Proof. reflexivity. Qed.

Example split_keeps_empty_pieces : JS.split " a  b " = [""; "a"; ""; "b"; ""].
Proof. reflexivity. Qed.

Example split_empty : JS.split "" = [""].
Proof. reflexivity. Qed.

Example reduce_empty_throws : JS.reduce JS.concat ([] : list (list Item)) = None.
Proof. reflexivity. Qed.

Example sort_is_stable :
  JS.sort (fun x y : nat * string => Some (Z.of_nat (fst y) - Z.of_nat (fst x))%Z)
    [(1, "a"); (2, "b"); (1, "c"); (2, "d")]
  = Some [(2, "b"); (2, "d"); (1, "a"); (1, "c")].
Proof. reflexivity. Qed.

(** ** Routing *)

Lemma split_not_nil s : JS.split s <> [].
Proof.
  destruct s as [|c s]; simpl; [discriminate|].
  destruct (Ascii.eqb c " "); [discriminate|].
  destruct (JS.split s); discriminate.
Qed.

Lemma fractions_keyword_args q : fractions q = keywordOf q :: args q.
Proof.
  unfold keywordOf, args, fractions.
  pose proof (split_not_nil q). destruct (JS.split q); [contradiction|reflexivity].
Qed.

Lemma matchedPlugins_In q ps p :
  In p (matchedPlugins q ps) <-> In p ps /\ matchesKeyword q p = true.
Proof. unfold matchedPlugins. apply filter_In. Qed.

(** When no plugin passes the filter, the loop of the fallback branch,
    which tests the same condition again, pushes nothing. *)
Lemma fallback_makes_no_call q ps :
  matchedPlugins q ps = [] -> route q ps = [].
Proof.
  intros Hm. unfold route. rewrite Hm. simpl.
  assert (Hall : forall p, In p ps -> matchesKeyword q p = false).
  { intros p Hp. destruct (matchesKeyword q p) eqn:E; [|reflexivity].
    assert (In p (matchedPlugins q ps)) by (apply matchedPlugins_In; auto).
    rewrite Hm in H. contradiction. }
  clear Hm. induction ps as [|p ps IH]; [reflexivity|].
  simpl. unfold coreFallback at 1.
  rewrite (Hall p (or_introl eq_refl)), andb_false_r. simpl.
  apply IH. intros p' Hp'. apply Hall. now right.
Qed.

Lemma route_matched q ps :
  matchedPlugins q ps <> [] ->
  route q ps = List.map (dispatch q) (matchedPlugins q ps).
Proof.
  intros Hm. unfold route.
  destruct (matchedPlugins q ps); [contradiction|reflexivity].
Qed.

Section HandlerFacts.
Variable score : string -> string -> Q.
Variable MAX_RESULTS : nat.
Variable provider : Call -> Provided.

Local Abbreviation itemsOf := (itemsOf provider).

Lemma issue_joined cs made rs vs :
  issue provider cs = (made, Some rs) -> Promise_all rs = Some vs ->
  made = cs /\ vs = List.map itemsOf cs /\
  Forall (fun c => exists items, provider c = Returned (Resolved items)) cs.
Proof.
  revert made rs vs. induction cs as [|c cs IH]; intros made rs vs Hi Hp.
  - simpl in Hi. injection Hi as <- <-. simpl in Hp. injection Hp as <-.
    repeat split; constructor.
  - simpl in Hi. destruct (provider c) as [s|] eqn:Ec; [|discriminate].
    destruct (issue provider cs) as [made' ps'] eqn:Ei.
    destruct ps' as [r|]; [|discriminate].
    injection Hi as <- <-. simpl in Hp.
    destruct s as [items|]; [|discriminate].
    destruct (Promise_all r) as [vs'|] eqn:Er; [|discriminate].
    injection Hp as <-.
    destruct (IH _ _ _ eq_refl Er) as (-> & -> & HF).
    repeat split.
    + simpl. replace (itemsOf c) with items; [reflexivity|].
      unfold itemsOf. now rewrite Ec.
    + constructor; eauto.
Qed.

Lemma issue_all_resolved cs :
  Forall (fun c => exists items, provider c = Returned (Resolved items)) cs ->
  exists rs, issue provider cs = (cs, Some rs) /\
             Promise_all rs = Some (List.map itemsOf cs).
Proof.
  induction 1 as [|c cs [items Hc] _ (rs & Hi & Hp)].
  - exists []. split; reflexivity.
  - exists (Resolved items :: rs). simpl. rewrite Hc, Hi. split; [reflexivity|].
    rewrite Hp. simpl.
    replace (itemsOf c) with items; [reflexivity|].
    unfold itemsOf. now rewrite Hc.
Qed.

(** What a delivery tells about the run. *)
Lemma delivered_inv q ps out :
  delivered (handleQueryCommand score MAX_RESULTS provider q ps) = Some out ->
  invoked (handleQueryCommand score MAX_RESULTS provider q ps) = route q ps /\
  Forall (fun c => exists items, provider c = Returned (Resolved items))
         (route q ps) /\
  rank score MAX_RESULTS (keywordOf q) (List.map itemsOf (route q ps)) = Some out.
Proof.
  unfold handleQueryCommand.
  destruct (issue provider (route q ps)) as [made ps'] eqn:Ei. simpl.
  destruct ps' as [rs|]; [|discriminate].
  destruct (Promise_all rs) as [vs|] eqn:Ep; [|discriminate].
  destruct (issue_joined _ _ _ _ Ei Ep) as (-> & -> & HF).
  destruct (rank _ _ _ _) as [retval|] eqn:Er; [|discriminate].
  intros [= <-]. auto.
Qed.

Lemma handle_all_resolved q ps :
  Forall (fun c => exists items, provider c = Returned (Resolved items))
         (route q ps) ->
  handleQueryCommand score MAX_RESULTS provider q ps =
  mkQueryRun (route q ps)
    (rank score MAX_RESULTS (keywordOf q) (List.map itemsOf (route q ps))).
Proof.
  intros HF. destruct (issue_all_resolved _ HF) as (rs & Hi & Hp).
  unfold handleQueryCommand. rewrite Hi, Hp.
  destruct (rank _ _ _ _); reflexivity.
Qed.

(** With nothing routed the join resolves to the empty array, on which
    [reduce] throws: nothing is sent. *)
Lemma empty_route_delivers_nothing q ps :
  route q ps = [] ->
  handleQueryCommand score MAX_RESULTS provider q ps = mkQueryRun [] None.
Proof. intros H. unfold handleQueryCommand. rewrite H. reflexivity. Qed.
End HandlerFacts.

(** ** Ranking *)

Lemma reduce_concat {A} (ls : list (list A)) :
  JS.reduce JS.concat ls =
  match ls with [] => None | _ => Some (List.concat ls) end.
Proof.
  destruct ls as [|x r]; [reflexivity|]. simpl. f_equal.
  revert x. induction r as [|y r IH]; intros x; simpl.
  - now rewrite app_nil_r.
  - rewrite IH. unfold JS.concat. now rewrite app_assoc.
Qed.

Lemma filter_throws {A} (p : A -> option bool) l x :
  In x l -> p x = None -> JS.filter p l = None.
Proof.
  induction l as [|y l IH]; intros Hin Hx; [contradiction|].
  simpl. destruct Hin as [->|Hin]; [now rewrite Hx|].
  destruct (p y); [|reflexivity]. now rewrite IH.
Qed.

Lemma filter_total {A} (p : A -> option bool) l r :
  JS.filter p l = Some r ->
  Forall (fun x => exists b, p x = Some b) l /\
  r = List.filter (fun x => match p x with Some b => b | None => false end) l.
Proof.
  revert r. induction l as [|x l IH]; intros r H; simpl in H.
  - injection H as <-. split; constructor.
  - destruct (p x) as [b|] eqn:Ex; [|discriminate].
    destruct (JS.filter p l) as [r'|]; [|discriminate].
    injection H as <-. destruct (IH _ eq_refl) as [HF ->].
    split; [constructor; eauto|]. simpl. rewrite Ex. reflexivity.
Qed.

Lemma insert_perm {A} (cmp : A -> A -> option Z) x l r :
  JS.insert cmp x l = Some r -> Permutation (x :: l) r.
Proof.
  revert r. induction l as [|y l IH]; intros r H; simpl in H.
  - injection H as <-. reflexivity.
  - destruct (cmp x y) as [c|]; [|discriminate].
    destruct (c <=? 0)%Z.
    + injection H as <-. reflexivity.
    + destruct (JS.insert cmp x l) as [r'|]; [|discriminate].
      injection H as <-. rewrite perm_swap. constructor. now apply IH.
Qed.

Lemma sort_perm {A} (cmp : A -> A -> option Z) l s :
  JS.sort cmp l = Some s -> Permutation l s.
Proof.
  revert s. induction l as [|x l IH]; intros s H; simpl in H.
  - injection H as <-. constructor.
  - destruct (JS.sort cmp l) as [s'|]; [|discriminate].
    rewrite <- (insert_perm _ _ _ _ H). constructor. now apply IH.
Qed.

Section RankFacts.
Variable score : string -> string -> Q.
Variable kw : string.

Local Abbreviation tscore := (titleScore score kw).
Local Abbreviation cmp := (compareScore score kw).
Local Abbreviation prec := (precedes score kw).
Local Abbreviation scored := (hasScore score kw).

Lemma compareScore_spec a b sa sb :
  tscore a = Some sa -> tscore b = Some sb ->
  exists c, cmp a b = Some c /\ ((c <=? 0)%Z = true <-> (sb <= sa)%Q).
Proof.
  intros Ha Hb. unfold compareScore. rewrite Ha, Hb.
  destruct (Qeq_bool sa sb) eqn:Ee.
  - exists 0%Z. split; [reflexivity|]. apply Qeq_bool_iff in Ee.
    split; [intros _; rewrite Ee; apply Qle_refl|reflexivity].
  - destruct (Qle_bool sb sa) eqn:El; simpl.
    + exists (-1)%Z. split; [reflexivity|]. apply Qle_bool_iff in El.
      split; [auto|reflexivity].
    + exists 1%Z. split; [reflexivity|]. split; [discriminate|].
      intros H. apply Qle_bool_iff in H. congruence.
Qed.

Lemma compareScore_inv a b c :
  cmp a b = Some c ->
  exists sa sb, tscore a = Some sa /\ tscore b = Some sb /\
                ((c <=? 0)%Z = true <-> (sb <= sa)%Q).
Proof.
  intros H. unfold compareScore in H.
  destruct (tscore a) as [sa|] eqn:Ha; [|discriminate].
  destruct (tscore b) as [sb|] eqn:Hb; [|discriminate].
  exists sa, sb. repeat split; trivial.
  - destruct (compareScore_spec _ _ _ _ Ha Hb) as (c' & Hc & Hiff).
    unfold compareScore in Hc. rewrite Ha, Hb in Hc.
    rewrite Hc in H. injection H as <-. apply Hiff.
  - destruct (compareScore_spec _ _ _ _ Ha Hb) as (c' & Hc & Hiff).
    unfold compareScore in Hc. rewrite Ha, Hb in Hc.
    rewrite Hc in H. injection H as <-. apply Hiff.
Qed.

Lemma precedes_trans a b c : prec a b -> prec b c -> prec a c.
Proof.
  intros (sa & sb & Ha & Hb & H1) (sb' & sc & Hb' & Hc & H2).
  rewrite Hb in Hb'. injection Hb' as <-.
  exists sa, sc. repeat split; trivial. now apply Qle_trans with sb.
Qed.

Lemma insert_sorted x l r :
  (exists sx, tscore x = Some sx) ->
  StronglySorted prec l -> JS.insert cmp x l = Some r ->
  StronglySorted prec r.
Proof.
  intros [sx Hx]. revert r. induction l as [|y l IH]; intros r Hs H; simpl in H.
  - injection H as <-. repeat constructor.
  - destruct (cmp x y) as [c|] eqn:Ec; [|discriminate].
    destruct (compareScore_inv _ _ _ Ec) as (sx' & sy & Hx' & Hy & Hiff).
    rewrite Hx in Hx'. injection Hx' as <-.
    inversion Hs as [|? ? Hs' HF]; subst.
    destruct (c <=? 0)%Z eqn:Ecz.
    + injection H as <-. constructor; [assumption|].
      assert (Hxy : prec x y).
      { exists sx, sy. repeat split; trivial. now apply Hiff. }
      constructor; [assumption|].
      eapply List.Forall_impl; [|exact HF]. intros z Hz.
      now apply precedes_trans with y.
    + destruct (JS.insert cmp x l) as [r'|] eqn:Ei; [|discriminate].
      injection H as <-. constructor; [now apply IH|].
      apply List.Forall_forall. intros z Hz.
      apply (Permutation_in _ (Permutation_sym (insert_perm _ _ _ _ Ei))) in Hz.
      destruct Hz as [<-|Hz].
      * exists sy, sx. repeat split; trivial.
        destruct (Qlt_le_dec sy sx) as [Hlt|Hle]; [|assumption].
        apply Qlt_le_weak in Hlt. apply Hiff in Hlt. congruence.
      * rewrite List.Forall_forall in HF. now apply HF.
Qed.

Lemma sort_sorted l s :
  Forall (fun i => exists si, tscore i = Some si) l ->
  JS.sort cmp l = Some s -> StronglySorted prec s.
Proof.
  revert s. induction l as [|x l IH]; intros s HF H; simpl in H.
  - injection H as <-. constructor.
  - inversion HF; subst.
    destruct (JS.sort cmp l) as [s'|]; [|discriminate].
    eapply insert_sorted; eauto.
Qed.

(** Insertion leaves the order of the items of any one score alone. *)
Lemma insert_stable v x l r :
  JS.insert cmp x l = Some r ->
  List.filter (scored v) r = List.filter (scored v) (x :: l).
Proof.
  revert r. induction l as [|y l IH]; intros r H; simpl in H.
  - injection H as <-. reflexivity.
  - destruct (cmp x y) as [c|] eqn:Ec; [|discriminate].
    destruct (c <=? 0)%Z eqn:Ecz.
    + injection H as <-. reflexivity.
    + destruct (JS.insert cmp x l) as [r'|] eqn:Ei; [|discriminate].
      injection H as <-.
      pose proof (IH _ eq_refl) as IHr. simpl in IHr |- *. rewrite IHr.
      destruct (compareScore_inv _ _ _ Ec) as (sx & sy & Hx & Hy & Hiff).
      assert (Hnot : scored v x = true -> scored v y = true -> False).
      { unfold hasScore. rewrite Hx, Hy. intros Exv Eyv.
        apply Qeq_bool_iff in Eyv, Exv.
        assert (sy <= sx)%Q by (rewrite Eyv, Exv; apply Qle_refl).
        apply Hiff in H. congruence. }
      destruct (scored v y), (scored v x); try reflexivity.
      exfalso; auto.
Qed.

Lemma sort_stable v l s :
  JS.sort cmp l = Some s ->
  List.filter (scored v) s = List.filter (scored v) l.
Proof.
  revert s. induction l as [|x l IH]; intros s H; simpl in H.
  - injection H as <-. reflexivity.
  - destruct (JS.sort cmp l) as [s'|]; [|discriminate].
    rewrite (insert_stable _ _ _ _ H). simpl. now rewrite (IH _ eq_refl).
Qed.
End RankFacts.

(** ** The [then] callback as a whole *)

Lemma filter_perm {A} (f : A -> bool) l l' :
  Permutation l l' -> Permutation (List.filter f l) (List.filter f l').
Proof.
  induction 1 as [|x l l' _ IH|x y l|l l' l'' _ IH1 _ IH2]; simpl.
  - constructor.
  - destruct (f x); [now constructor|assumption].
  - destruct (f x), (f y); try reflexivity. apply perm_swap.
  - now transitivity (List.filter f l').
Qed.

Lemma sorted_filter {A} (R : A -> A -> Prop) (f : A -> bool) l :
  StronglySorted R l -> StronglySorted R (List.filter f l).
Proof.
  induction 1 as [|x l Hs IH HF]; simpl; [constructor|].
  destruct (f x); [|assumption]. constructor; [assumption|].
  apply List.Forall_forall. intros y Hy. apply filter_In in Hy.
  rewrite List.Forall_forall in HF. now apply HF.
Qed.

Lemma firstn_In {A} n (l : list A) x : In x (firstn n l) -> In x l.
Proof.
  intros H. rewrite <- (firstn_skipn n l). apply in_or_app. now left.
Qed.

Lemma sorted_firstn {A} (R : A -> A -> Prop) n l :
  StronglySorted R l -> StronglySorted R (firstn n l).
Proof.
  intros Hs. revert n. induction Hs as [|x l Hs IH HF]; intros [|n]; simpl;
    try constructor; auto.
  apply List.Forall_forall. intros y Hy. apply firstn_In in Hy.
  rewrite List.Forall_forall in HF. now apply HF.
Qed.

(** A filter that decides alike on all the items selected by [sel]
    either keeps them all, in order, or drops them all. *)
Lemma filter_within_class {A} (sel f : A -> bool) (b : bool) l :
  (forall x, sel x = true -> f x = b) ->
  List.filter sel (List.filter f l) = if b then List.filter sel l else [].
Proof.
  intros H. induction l as [|x l IH]; simpl; [now destruct b|].
  destruct (sel x) eqn:Es.
  - rewrite (H _ Es). destruct b; simpl; [now rewrite Es, IH|assumption].
  - destruct (f x); simpl; [now rewrite Es|]; assumption.
Qed.

Lemma filter_firstn_prefix {A} (sel : A -> bool) n l :
  exists rest, List.filter sel l = List.filter sel (firstn n l) ++ rest.
Proof.
  exists (List.filter sel (skipn n l)).
  rewrite <- List.filter_app. now rewrite firstn_skipn.
Qed.

Section CallbackFacts.
Variable score : string -> string -> Q.
Variable MAX_RESULTS : nat.
Variable kw : string.

Local Abbreviation tscore := (titleScore score kw).

Lemma keepItem_titled i b : keepItem score kw i = Some b -> exists s, tscore i = Some s.
Proof. unfold keepItem. destruct (tscore i); [eauto|discriminate]. Qed.

Lemma kept_passes i : kept score kw i = true <-> passesFilter score kw i.
Proof.
  unfold kept, passesFilter, keepItem. destruct (tscore i) as [s|].
  - destruct (Qeq_bool s 0) eqn:E0; simpl.
    + apply Qeq_bool_iff in E0. split; [eauto|reflexivity].
    + destruct (Qle_bool s (1 # 4)) eqn:El; simpl.
      * apply Qle_bool_iff in El. split; [discriminate|].
        intros (s' & [= <-] & [H|H]).
        -- apply Qeq_bool_iff in H. congruence.
        -- exfalso. eapply Qlt_irrefl, Qlt_le_trans; eauto.
      * split; [|reflexivity]. intros _. exists s. split; [reflexivity|right].
        destruct (Qlt_le_dec (1 # 4) s) as [H|H]; [assumption|].
        apply Qle_bool_iff in H. congruence.
  - split; [discriminate|]. intros (s & H & _). discriminate.
Qed.

Lemma kept_of_class v i : hasScore score kw v i = true -> kept score kw i = keptAt v.
Proof.
  unfold hasScore, kept, keepItem, keptAt. destruct (tscore i) as [s|]; [|discriminate].
  intros H. apply Qeq_bool_iff in H.
  assert (E0 : Qeq_bool s 0 = Qeq_bool v 0).
  { destruct (Qeq_bool s 0) eqn:Es, (Qeq_bool v 0) eqn:Ev; trivial.
    - apply Qeq_bool_iff in Es. rewrite H in Es. apply Qeq_bool_iff in Es. congruence.
    - apply Qeq_bool_iff in Ev. rewrite <- H in Ev. apply Qeq_bool_iff in Ev. congruence. }
  assert (El : Qle_bool s (1 # 4) = Qle_bool v (1 # 4)).
  { destruct (Qle_bool s (1 # 4)) eqn:Es, (Qle_bool v (1 # 4)) eqn:Ev; trivial.
    - apply Qle_bool_iff in Es. rewrite H in Es. apply Qle_bool_iff in Es. congruence.
    - apply Qle_bool_iff in Ev. rewrite <- H in Ev. apply Qle_bool_iff in Ev. congruence. }
  now rewrite E0, El.
Qed.

(** The callback delivers exactly when its input is not empty and
    every item has a title; it then delivers the first [MAX_RESULTS]
    kept items of the sorted batch. *)
Lemma rank_inv rs out :
  rank score MAX_RESULTS kw rs = Some out ->
  exists sorted,
    rs <> [] /\
    JS.sort (compareScore score kw) (List.concat rs) = Some sorted /\
    Forall (fun i => exists s, tscore i = Some s) sorted /\
    out = firstn MAX_RESULTS (List.filter (kept score kw) sorted).
Proof.
  unfold rank. rewrite reduce_concat.
  destruct rs as [|r rs]; [discriminate|].
  destruct (JS.sort _ _) as [sorted|] eqn:Es; [|discriminate].
  destruct (JS.filter _ sorted) as [k|] eqn:Ef; [|discriminate].
  intros [= <-]. exists sorted.
  destruct (filter_total _ _ _ Ef) as [HF ->].
  repeat split; try discriminate.
  eapply List.Forall_impl; [|exact HF]. intros i [b Hb].
  eapply keepItem_titled; eauto.
Qed.

Lemma rank_untitled rs i :
  In i (List.concat rs) -> title i = None -> rank score MAX_RESULTS kw rs = None.
Proof.
  intros Hin Ht. destruct (rank score MAX_RESULTS kw rs) as [out|] eqn:Er; [|reflexivity].
  destruct (rank_inv _ _ Er) as (sorted & _ & Hs & HF & _).
  apply (Permutation_in _ (sort_perm _ _ _ Hs)) in Hin.
  rewrite List.Forall_forall in HF. destruct (HF _ Hin) as [s Hsc].
  unfold titleScore in Hsc. rewrite Ht in Hsc. discriminate.
Qed.
End CallbackFacts.

(** ** Items that differ in the letter case of their titles *)

Section Related.
Context {A : Type} (R : A -> A -> Prop).

Lemma insert_related (cmp : A -> A -> option Z) x x' l l' :
  (forall a a' b b', R a a' -> R b b' -> cmp a b = cmp a' b') ->
  R x x' -> Forall2 R l l' ->
  option_Forall2 (Forall2 R) (JS.insert cmp x l) (JS.insert cmp x' l').
Proof.
  intros Hc Hx HF. induction HF as [|y y' l l' Hy HF IH]; simpl.
  - repeat constructor. exact Hx.
  - rewrite (Hc _ _ _ _ Hx Hy). destruct (cmp x' y') as [c|]; [|constructor].
    destruct (c <=? 0)%Z.
    + repeat constructor; assumption.
    + destruct IH as [r r' Hr|]; repeat constructor; assumption.
Qed.

Lemma sort_related (cmp : A -> A -> option Z) l l' :
  (forall a a' b b', R a a' -> R b b' -> cmp a b = cmp a' b') ->
  Forall2 R l l' ->
  option_Forall2 (Forall2 R) (JS.sort cmp l) (JS.sort cmp l').
Proof.
  intros Hc HF. induction HF as [|x x' l l' Hx HF IH]; simpl.
  - repeat constructor.
  - destruct IH as [s s' Hs|]; [|constructor].
    now apply insert_related.
Qed.

Lemma filter_related (p : A -> option bool) l l' :
  (forall a a', R a a' -> p a = p a') ->
  Forall2 R l l' ->
  option_Forall2 (Forall2 R) (JS.filter p l) (JS.filter p l').
Proof.
  intros Hp HF. induction HF as [|x x' l l' Hx HF IH]; simpl.
  - repeat constructor.
  - rewrite (Hp _ _ Hx). destruct (p x') as [b|]; [|constructor].
    destruct IH as [r r' Hr|]; [|constructor].
    constructor. destruct b; [constructor|]; assumption.
Qed.

Lemma firstn_related n l l' :
  Forall2 R l l' -> Forall2 R (firstn n l) (firstn n l').
Proof.
  intros HF. revert n. induction HF; intros [|n]; simpl; constructor; auto.
Qed.

Lemma concat_related ls ls' :
  Forall2 (Forall2 R) ls ls' -> Forall2 R (List.concat ls) (List.concat ls').
Proof.
  induction 1; simpl; [constructor|]. now apply List.Forall2_app.
Qed.
End Related.

Section TitleCase.
Variable score : string -> string -> Q.
Variable kw : string.

Lemma same_titleScore a b :
  sameButTitleCase a b -> titleScore score kw a = titleScore score kw b.
Proof.
  intros (_ & _ & Ht). unfold titleScore.
  destruct Ht as [t u E|]; [now rewrite E|reflexivity].
Qed.

Lemma same_compareScore a a' b b' :
  sameButTitleCase a a' -> sameButTitleCase b b' ->
  compareScore score kw a b = compareScore score kw a' b'.
Proof.
  intros Ha Hb. unfold compareScore.
  now rewrite (same_titleScore _ _ Ha), (same_titleScore _ _ Hb).
Qed.

Lemma same_keepItem a b :
  sameButTitleCase a b -> keepItem score kw a = keepItem score kw b.
Proof. intros H. unfold keepItem. now rewrite (same_titleScore _ _ H). Qed.
End TitleCase.

(** ** The cache and the detail handler *)

Lemma entry_set (st : CacheConf.store) c k v c' k' :
  CacheConf.entry (CacheConf.set st c k v) c' k' =
  if decide (c = c' /\ k = k') then Some v else CacheConf.entry st c' k'.
Proof.
  unfold CacheConf.entry, CacheConf.set.
  destruct (decide (c = c')) as [<-|Hc].
  - rewrite lookup_insert_eq. destruct (decide (k = k')) as [<-|Hk].
    + rewrite lookup_insert_eq. now rewrite decide_True.
    + rewrite lookup_insert_ne by assumption. rewrite decide_False by tauto.
      destruct (st !! c); [reflexivity|apply lookup_empty].
  - rewrite lookup_insert_ne by assumption. now rewrite decide_False by tauto.
Qed.

Lemma has_entry (st : CacheConf.store) c k :
  CacheConf.has st c k = true ->
  CacheConf.entry st c k = Some (CacheConf.get st c k).
Proof.
  unfold CacheConf.has, CacheConf.get.
  destruct (CacheConf.entry st c k); [reflexivity|discriminate].
Qed.

Lemma has_set (st : CacheConf.store) c k v c' k' :
  CacheConf.has st c' k' = true ->
  CacheConf.has (CacheConf.set st c k v) c' k' = true.
Proof.
  unfold CacheConf.has. rewrite entry_set.
  destruct (decide (c = c' /\ k = k')); auto.
Qed.

Section DetailFacts.
Variable JSON_stringify : Item -> string.
Variable basename : string -> string.

Local Abbreviation handle := (handleItemDetailsRequest JSON_stringify basename).
Local Abbreviation step := (step JSON_stringify basename).
Local Abbreviation run := (run JSON_stringify basename).

Lemma handle_cache item d s : cache (handle item d s) = cache s.
Proof.
  unfold handleItemDetailsRequest. destruct (plugin item); [|reflexivity].
  destruct (CacheConf.has _ _ _); [reflexivity|]. destruct d; reflexivity.
Qed.

(** No step removes an entry: the handler only ever calls [set]. *)
Lemma step_keeps_entry s l c k :
  CacheConf.has (cache s) c k = true ->
  CacheConf.has (cache (step s l)) c k = true.
Proof.
  intros H. destruct l as [item d|n]; simpl.
  - now rewrite handle_cache.
  - destruct (nth_error (pending s) n); [|assumption]. simpl. now apply has_set.
Qed.

Lemma run_keeps_entry s ls c k :
  CacheConf.has (cache s) c k = true ->
  CacheConf.has (cache (run s ls)) c k = true.
Proof.
  revert s. induction ls as [|l ls IH]; intros s H; simpl; [assumption|].
  apply IH. now apply step_keeps_entry.
Qed.

Lemma settle_stores s n r :
  nth_error (pending s) n = Some r ->
  trace (step s (Settle n)) =
    trace s ++ [CacheSet (r_configName r) (r_cacheKey r) (r_html r);
                Sent (r_html r)] /\
  CacheConf.entry (cache (step s (Settle n))) (r_configName r) (r_cacheKey r)
  = Some (r_html r).
Proof.
  intros H. simpl. rewrite H. simpl. split; [reflexivity|].
  rewrite entry_set. now rewrite decide_True.
Qed.

Lemma remove_nth_Forall {A} (P : A -> Prop) n l :
  Forall P l -> Forall P (remove_nth n l).
Proof.
  intros H. revert n. induction H as [|x l Hx H IH]; intros [|n]; simpl;
    try constructor; auto.
Qed.

(** While every waiting callback of a key carries the cached content,
    the content under that key does not change. *)
Lemma step_keeps_value s l c k v :
  CacheConf.entry (cache s) c k = Some v ->
  Forall (agrees c k v) (pending s) ->
  CacheConf.entry (cache (step s l)) c k = Some v /\
  Forall (agrees c k v) (pending (step s l)).
Proof.
  intros He HF. destruct l as [item d|n]; simpl.
  - rewrite handle_cache. split; [assumption|].
    unfold handleItemDetailsRequest. destruct (plugin item) as [p|]; [|assumption].
    destruct (CacheConf.has (cache s) (configNameOf basename p)
                (JSON_stringify item)) eqn:Hhas; simpl.
    + apply List.Forall_app. split; [assumption|]. constructor; [|constructor].
      intros Hc Hk. simpl in *. subst c k.
      unfold CacheConf.get. now rewrite He.
    + destruct d; simpl; try assumption.
      apply List.Forall_app. split; [assumption|]. constructor; [|constructor].
      intros Hc Hk. simpl in *. subst c k.
      unfold CacheConf.has in Hhas. rewrite He in Hhas. discriminate.
  - destruct (nth_error (pending s) n) as [r|] eqn:Hn; [|auto]. simpl. split.
    + rewrite entry_set. destruct (decide (r_configName r = c /\ r_cacheKey r = k))
        as [[Hc Hk]|_]; [|assumption].
      f_equal. apply nth_error_In in Hn.
      rewrite List.Forall_forall in HF. now apply HF.
    + now apply remove_nth_Forall.
Qed.

Lemma run_keeps_value s ls c k v :
  CacheConf.entry (cache s) c k = Some v ->
  Forall (agrees c k v) (pending s) ->
  CacheConf.entry (cache (run s ls)) c k = Some v.
Proof.
  revert s. induction ls as [|l ls IH]; intros s He HF; simpl; [assumption|].
  destruct (step_keeps_value s l c k v He HF). now apply IH.
Qed.

Lemma nth_error_remove_last {A} (l : list A) x :
  nth_error (l ++ [x]) (List.length l) = Some x.
Proof. induction l; simpl; auto. Qed.
End DetailFacts.

(** * The claims *)

(** ** Routing and the join *)

(** C1. At the query "xyz hello" over a registry whose plugins all carry
    the keyword "calc", one of them a core plugin, no plugin passes the
    filter, yet the fallback loop queries nobody: the core plugin is not
    called with the full token list, no call is made and nothing is
    sent. *)
Theorem fallback_skips_core_plugin score MAX_RESULTS provider :
  matchedPlugins "xyz hello" [coreCalc; calc] = [] /\
  isCore coreCalc = true /\
  fractions "xyz hello" = ["xyz"; "hello"] /\
  route "xyz hello" [coreCalc; calc] = [] /\
  handleQueryCommand score MAX_RESULTS provider "xyz hello" [coreCalc; calc]
  = mkQueryRun [] None.
Proof. repeat split. Qed.

(** C2. At the query "xyz" over a registry that holds only the non-core
    plugin with keyword "calc", the routed set is empty; the handler
    makes no provider call, and it sends nothing at all instead of the
    empty sequence. *)
Theorem empty_route_sends_nothing score MAX_RESULTS provider :
  route "xyz" [calc] = [] /\
  invoked (handleQueryCommand score MAX_RESULTS provider "xyz" [calc]) = [] /\
  delivered (handleQueryCommand score MAX_RESULTS provider "xyz" [calc]) = None /\
  delivered (handleQueryCommand score MAX_RESULTS provider "xyz" [calc])
  <> Some [].
Proof. repeat split. discriminate. Qed.

(** C3, amended. A plugin of the matched set that has a keyword is
    invoked in helper mode, through [queryHelper] with the keyword, when
    it is not a core plugin and the string after the keyword is empty; it
    is invoked in results mode, with the tokens after the keyword, when
    that string is not empty or when it is a core plugin. *)
Theorem keyword_plugin_mode q ps p :
  In p (matchedPlugins q ps) -> truthy (keyword p) = true ->
  In (dispatch q p) (route q ps) /\
  (isCore p = false -> queryString q = "" ->
   dispatch q p = queryHelper p (keywordOf q)) /\
  (queryString q <> "" -> dispatch q p = queryResults p (args q)) /\
  (isCore p = true -> dispatch q p = queryResults p (args q)).
Proof.
  intros Hin Hk.
  assert (Hmk : matchesKeyword q p = true) by (now apply matchedPlugins_In in Hin).
  split; [|split; [|split]].
  - rewrite route_matched; [now apply in_map|].
    intros E. rewrite E in Hin. contradiction.
  - intros Hc Hq. unfold dispatch, display. rewrite Hc, Hk, Hq. reflexivity.
  - intros Hq. unfold dispatch, display. rewrite Hk.
    destruct (String.length (queryString q)) eqn:El.
    + destruct (queryString q); [contradiction|discriminate].
    + simpl. destruct (isCore p && matchesKeyword q p); reflexivity.
  - intros Hc. unfold dispatch, display. rewrite Hc, Hmk, Hk. reflexivity.
Qed.

(** C7. If any routed provider call throws or returns a promise that
    rejects, the join fails and nothing is delivered for that query, not
    even the items of the calls that resolved. *)
Theorem provider_failure_fails_join score MAX_RESULTS provider q ps c :
  In c (route q ps) ->
  provider c = Threw \/ provider c = Returned Rejected ->
  delivered (handleQueryCommand score MAX_RESULTS provider q ps) = None.
Proof.
  intros Hin Hfail.
  destruct (delivered (handleQueryCommand score MAX_RESULTS provider q ps))
    as [out|] eqn:Hd; [|reflexivity].
  apply delivered_inv in Hd. destruct Hd as (_ & HF & _).
  rewrite List.Forall_forall in HF. destruct (HF _ Hin) as [items Hc].
  destruct Hfail as [H|H]; rewrite H in Hc; discriminate.
Qed.

(** ** Filtering, ordering and malformed items *)

(** C4, amended. Every delivered item is an aggregated item whose score
    is exactly 0 or strictly greater than 0.25, so an item with
    0 < s <= 0.25 is never delivered; and an aggregated item whose score
    is 0 or greater than 0.25 is delivered whenever at most [MAX_RESULTS]
    aggregated items have such a score (the filtered list is cut to its
    first [MAX_RESULTS] items). *)
Theorem delivered_pass_filter score MAX_RESULTS provider q ps out :
  delivered (handleQueryCommand score MAX_RESULTS provider q ps) = Some out ->
  (forall i, In i out ->
     In i (aggregated provider q ps) /\ passesFilter score (keywordOf q) i) /\
  (List.length (List.filter (kept score (keywordOf q)) (aggregated provider q ps))
   <= MAX_RESULTS ->
   forall i, In i (aggregated provider q ps) ->
     passesFilter score (keywordOf q) i -> In i out) /\
  (forall i s, In i out -> titleScore score (keywordOf q) i = Some s ->
     ~ (0 < s /\ s <= 1 # 4)%Q).
Proof.
  intros Hd. apply delivered_inv in Hd. destruct Hd as (_ & _ & Hr).
  destruct (rank_inv _ _ _ _ _ Hr) as (sorted & _ & Hs & _ & ->).
  fold (aggregated provider q ps) in Hs.
  pose proof (sort_perm _ _ _ Hs) as Hp.
  assert (Hpass : forall i,
             In i (firstn MAX_RESULTS (List.filter (kept score (keywordOf q)) sorted)) ->
             In i (aggregated provider q ps) /\ passesFilter score (keywordOf q) i).
  { intros i Hi. apply firstn_In, filter_In in Hi. destruct Hi as [Hi Hk].
    split; [|now apply kept_passes].
    eapply Permutation_in; [symmetry; exact Hp|exact Hi]. }
  split; [exact Hpass|split].
  - intros Hlen i Hi Hpass'.
    rewrite firstn_all2.
    + apply filter_In. split; [|now apply kept_passes].
      eapply Permutation_in; [exact Hp|exact Hi].
    + rewrite <- (Permutation_length (filter_perm (kept score (keywordOf q)) _ _ Hp)).
      exact Hlen.
  - intros i s Hi Hsc [Hpos Hle].
    destruct (Hpass i Hi) as [_ (s' & Hsc' & Hcase)].
    rewrite Hsc in Hsc'. injection Hsc' as <-.
    destruct Hcase as [H0|Hgt].
    + rewrite H0 in Hpos. now apply Qlt_irrefl in Hpos.
    + eapply Qlt_irrefl, Qlt_le_trans; eauto.
Qed.

(** C5. The delivered sequence is in non-increasing order of the score
    of the lower-cased title against the keyword, and the delivered items
    of any one score stand in the order they have in the concatenated
    provider output, of whose items of that score they are the first;
    the comparator returns 0 on equal scores. *)
Theorem delivered_sorted_stable score MAX_RESULTS provider q ps out :
  delivered (handleQueryCommand score MAX_RESULTS provider q ps) = Some out ->
  StronglySorted (precedes score (keywordOf q)) out /\
  (forall v, exists rest,
    List.filter (hasScore score (keywordOf q) v) (aggregated provider q ps) =
    List.filter (hasScore score (keywordOf q) v) out ++ rest) /\
  (forall a b sa sb,
     titleScore score (keywordOf q) a = Some sa ->
     titleScore score (keywordOf q) b = Some sb ->
     (sa == sb)%Q -> compareScore score (keywordOf q) a b = Some 0%Z).
Proof.
  intros Hd. apply delivered_inv in Hd. destruct Hd as (_ & _ & Hr).
  destruct (rank_inv _ _ _ _ _ Hr) as (sorted & _ & Hs & HF & ->).
  fold (aggregated provider q ps) in Hs.
  split; [|split].
  3:{ intros a b sa sb Ha Hb He. unfold compareScore. rewrite Ha, Hb.
      apply Qeq_bool_iff in He. now rewrite He. }
  - apply sorted_firstn, sorted_filter.
    apply (sort_sorted score (keywordOf q) (aggregated provider q ps)); [|exact Hs].
    rewrite List.Forall_forall in *. intros i Hi. apply HF.
    eapply Permutation_in; [exact (sort_perm _ _ _ Hs)|exact Hi].
  - intros v. rewrite <- (sort_stable _ _ v _ _ Hs).
    destruct (filter_firstn_prefix (hasScore score (keywordOf q) v) MAX_RESULTS
                (List.filter (kept score (keywordOf q)) sorted)) as [rest Hrest].
    rewrite (filter_within_class _ _ (keptAt v)) in Hrest
      by (intros x Hx; now apply kept_of_class).
    destruct (keptAt v).
    + exists rest. exact Hrest.
    + symmetry in Hrest. apply app_eq_nil in Hrest. destruct Hrest as [-> _].
      eexists. reflexivity.
Qed.

(** C9, amended. The handler has no fallback for an item without a
    title: whenever the aggregated batch contains one, lower-casing the
    absent title throws in the ranking pass and nothing is delivered for
    that query. *)
Theorem untitled_item_fails_batch score MAX_RESULTS provider q ps i :
  In i (aggregated provider q ps) -> title i = None ->
  delivered (handleQueryCommand score MAX_RESULTS provider q ps) = None.
Proof.
  intros Hin Ht.
  destruct (delivered (handleQueryCommand score MAX_RESULTS provider q ps))
    as [out|] eqn:Hd; [|reflexivity].
  apply delivered_inv in Hd. destruct Hd as (_ & _ & Hr).
  rewrite (rank_untitled _ _ _ _ i Hin Ht) in Hr. discriminate.
Qed.

(** ** Letter case *)

(** C8, amended. Ranking and filtering do not depend on the letter case
    of the titles: titles are lower-cased before scoring, so two batches
    that differ only in the letter case of their titles give every item
    the same score, the same comparisons and the same filter outcome, and
    the callback fails on both or returns the same items in the same
    order.  The keyword reaches the scorer as typed. *)
Theorem title_case_is_ignored score MAX_RESULTS kw rs rs' :
  Forall2 (Forall2 sameButTitleCase) rs rs' ->
  Forall2 (Forall2 (fun a b =>
     titleScore score kw a = titleScore score kw b /\
     keepItem score kw a = keepItem score kw b)) rs rs' /\
  option_Forall2 (Forall2 sameButTitleCase)
    (rank score MAX_RESULTS kw rs) (rank score MAX_RESULTS kw rs').
Proof.
  intros H. split.
  - eapply List.Forall2_impl; [|exact H]. intros l l' Hl.
    eapply List.Forall2_impl; [|exact Hl]. intros a b Hab.
    split; [now apply same_titleScore|now apply same_keepItem].
  - unfold rank. rewrite !reduce_concat.
    destruct H as [|r r' rs rs' Hr Hrs]; [constructor|].
    pose proof (concat_related _ _ _ (List.Forall2_cons _ _ Hr Hrs)) as Hc.
    destruct (sort_related sameButTitleCase (compareScore score kw) _ _
                (same_compareScore score kw) Hc) as [s s' Hs|]; [|constructor].
    destruct (filter_related sameButTitleCase (keepItem score kw) _ _
                (same_keepItem score kw) Hs) as [k k' Hk|]; [|constructor].
    constructor. now apply firstn_related.
Qed.

(** ** Item details *)

(** C6. Once the callback of a detail request has stored its content
    under the item's key, whatever requests and callbacks follow, a later
    request for a payload with that key and plugin finds the entry: it
    does not call the plugin's detail entry point (the trace gains no
    event), and its callback answers with the content the cache holds.
    That content is the one stored first, unless a callback of the same
    key that was already waiting with another content has run since. *)
Theorem cached_details_not_retrieved JSON_stringify basename s n r ls item p d :
  nth_error (pending s) n = Some r ->
  plugin item = Some p ->
  r_configName r = configNameOf basename p ->
  r_cacheKey r = JSON_stringify item ->
  let stored := step JSON_stringify basename s (Settle n) in
  let later := run JSON_stringify basename stored ls in
  let asked := handleItemDetailsRequest JSON_stringify basename item d later in
  CacheConf.entry (cache stored) (configNameOf basename p) (JSON_stringify item)
  = Some (r_html r) /\
  exists html,
    CacheConf.entry (cache later) (configNameOf basename p) (JSON_stringify item)
    = Some html /\
    trace asked = trace later /\
    pending asked =
      pending later ++
      [mkReaction (configNameOf basename p) (JSON_stringify item) html] /\
    trace (step JSON_stringify basename asked (Settle (List.length (pending later))))
    = trace later ++
      [CacheSet (configNameOf basename p) (JSON_stringify item) html; Sent html] /\
    (Forall (agrees (configNameOf basename p) (JSON_stringify item) (r_html r))
            (pending stored) ->
     html = r_html r).
Proof.
  intros Hn Hp Hc Hk stored later asked.
  destruct (settle_stores JSON_stringify basename s n r Hn) as [_ Hst].
  rewrite Hc, Hk in Hst. split; [exact Hst|].
  assert (Hhas : CacheConf.has (cache later) (configNameOf basename p)
                   (JSON_stringify item) = true).
  { apply run_keeps_entry. unfold CacheConf.has, stored. now rewrite Hst. }
  exists (CacheConf.get (cache later) (configNameOf basename p) (JSON_stringify item)).
  assert (Ha : asked =
    mkState (cache later)
      (pending later ++
       [mkReaction (configNameOf basename p) (JSON_stringify item)
          (CacheConf.get (cache later) (configNameOf basename p)
             (JSON_stringify item))])
      (trace later)).
  { unfold asked, handleItemDetailsRequest. now rewrite Hp, Hhas. }
  split; [now apply has_entry|]. rewrite Ha. simpl.
  split; [reflexivity|]. split; [reflexivity|].
  split; [now rewrite nth_error_remove_last|].
  intros Hagree. unfold CacheConf.get, later.
  now rewrite (run_keeps_value JSON_stringify basename stored ls _ _ _ Hst Hagree).
Qed.

Lemma skipn_length_app {A} (t u : list A) : skipn (List.length t) (t ++ u) = u.
Proof. induction t; simpl; auto. Qed.

Lemma request_sends_nothing JSON_stringify basename s item d h :
  ~ In (Sent h)
      (skipn (List.length (trace s))
         (trace (handleItemDetailsRequest JSON_stringify basename item d s))).
Proof.
  unfold handleItemDetailsRequest. destruct (plugin item) as [p|].
  - destruct (CacheConf.has _ _ _); simpl.
    + rewrite skipn_all. auto.
    + destruct d; simpl; rewrite skipn_length_app; intros [H|[]]; discriminate.
  - rewrite skipn_all. auto.
Qed.

(** C10. A request whose content becomes available, read from the cache
    on a hit or returned by the plugin on a miss, sends nothing itself
    but registers one callback that carries the item's configuration
    name, its serialized key and that content.  When the callback runs,
    at once or after other requests and callbacks, it first writes the
    content under that key, also when it has just been read from there,
    and then sends it, so that right after the response the cache maps
    the key to the content delivered.  Nothing else ever sends a
    response. *)
Theorem response_is_what_the_cache_holds JSON_stringify basename s item p d html :
  plugin item = Some p ->
  (if CacheConf.has (cache s) (configNameOf basename p) (JSON_stringify item)
   then html = CacheConf.get (cache s) (configNameOf basename p)
                 (JSON_stringify item)
   else d = Content html) ->
  let waiting :=
    mkReaction (configNameOf basename p) (JSON_stringify item) html in
  let asked := handleItemDetailsRequest JSON_stringify basename item d s in
  let replied :=
    step JSON_stringify basename asked (Settle (List.length (pending s))) in
  cache asked = cache s /\
  pending asked = pending s ++ [waiting] /\
  (forall h, ~ In (Sent h) (skipn (List.length (trace s)) (trace asked))) /\
  trace replied =
    trace asked ++
    [CacheSet (configNameOf basename p) (JSON_stringify item) html; Sent html] /\
  CacheConf.entry (cache replied) (configNameOf basename p) (JSON_stringify item)
  = Some html /\
  (forall s' n, nth_error (pending s') n = Some waiting ->
     trace (step JSON_stringify basename s' (Settle n)) =
       trace s' ++
       [CacheSet (configNameOf basename p) (JSON_stringify item) html; Sent html] /\
     CacheConf.entry (cache (step JSON_stringify basename s' (Settle n)))
       (configNameOf basename p) (JSON_stringify item) = Some html) /\
  (forall s' l h,
     In (Sent h) (skipn (List.length (trace s'))
                    (trace (step JSON_stringify basename s' l))) ->
     exists n r, l = Settle n /\ nth_error (pending s') n = Some r /\
                 r_html r = h /\
                 CacheConf.entry (cache (step JSON_stringify basename s' l))
                   (r_configName r) (r_cacheKey r) = Some h).
Proof.
  intros Hp Hcontent waiting asked replied.
  assert (Hpend : pending asked = pending s ++ [waiting]).
  { unfold asked, handleItemDetailsRequest. rewrite Hp.
    destruct (CacheConf.has _ _ _); [now subst html|]. now subst d. }
  split; [apply handle_cache|]. split; [exact Hpend|].
  split; [intros h; apply request_sends_nothing|].
  assert (Hn : nth_error (pending asked) (List.length (pending s)) = Some waiting).
  { rewrite Hpend. apply nth_error_remove_last. }
  destruct (settle_stores JSON_stringify basename asked _ _ Hn) as [Ht He].
  split; [exact Ht|]. split; [exact He|]. split.
  - intros s' n Hs'. exact (settle_stores JSON_stringify basename s' n _ Hs').
  - intros s' l h Hin. destruct l as [item' d'|n].
    + simpl in Hin. now apply request_sends_nothing in Hin.
    + destruct (nth_error (pending s') n) as [r|] eqn:Er.
      * destruct (settle_stores JSON_stringify basename s' n r Er) as [Ht' He'].
        rewrite Ht', skipn_length_app in Hin.
        destruct Hin as [H|[H|[]]]; [discriminate|]. injection H as <-.
        exists n, r. auto.
      * simpl in Hin. rewrite Er, skipn_all in Hin. contradiction.
Qed.

(** * Further properties of the handlers *)

(** ** Tokens *)

Lemma join_split s : JS.join (JS.split s) = s.
Proof.
  unfold JS.join. induction s as [|c s IH]; [reflexivity|]. simpl.
  pose proof (split_not_nil s) as Hne.
  destruct (Ascii.eqb c " ") eqn:Ec.
  - apply Ascii.eqb_eq in Ec. subst c.
    destruct (JS.split s) as [|w ws]; [contradiction|].
    simpl in *. now rewrite IH.
  - destruct (JS.split s) as [|w ws]; [contradiction|].
    simpl in *. destruct ws; simpl in *; now rewrite <- IH.
Qed.

Lemma split_no_space s : Forall (fun t => hasSpace t = false) (JS.split s).
Proof.
  induction s as [|c s IH]; simpl; [repeat constructor|].
  destruct (Ascii.eqb c " ") eqn:Ec.
  - constructor; [reflexivity|assumption].
  - destruct (JS.split s) as [|w ws]; [repeat constructor; simpl; now rewrite Ec|].
    inversion IH; subst. constructor; [|assumption]. simpl. now rewrite Ec.
Qed.

Lemma split_token_then t rest :
  hasSpace t = false -> JS.split (t ++ " " ++ rest) = t :: JS.split rest.
Proof.
  induction t as [|c t IH]; simpl; intros H; [reflexivity|].
  apply orb_false_iff in H. destruct H as [Hc Ht].
  rewrite Hc. now rewrite (IH Ht).
Qed.

Lemma split_single t : hasSpace t = false -> JS.split t = [t].
Proof.
  induction t as [|c t IH]; simpl; intros H; [reflexivity|].
  apply orb_false_iff in H. destruct H as [Hc Ht].
  rewrite Hc. now rewrite (IH Ht).
Qed.

Lemma split_join ts :
  ts <> [] -> Forall (fun t => hasSpace t = false) ts ->
  JS.split (JS.join ts) = ts.
Proof.
  unfold JS.join. induction ts as [|t ts IH]; intros Hne HF; [contradiction|].
  inversion HF as [|? ? Ht HF']; subst.
  destruct ts as [|u us].
  - simpl. now apply split_single.
  - change (String.concat " " (t :: u :: us))
      with (t ++ " " ++ String.concat " " (u :: us))%string.
    rewrite split_token_then by assumption.
    f_equal. apply IH; [discriminate|assumption].
Qed.

(** X1. Splitting the phrase on single spaces loses nothing: the first
    token and the remaining ones, joined with single spaces, give back
    the phrase; no token contains a space; and these are the only
    space-free tokens that join to the phrase. *)
Theorem tokens_rebuild_phrase q :
  fractions q = keywordOf q :: args q /\
  JS.join (fractions q) = q /\
  Forall (fun t => hasSpace t = false) (fractions q) /\
  (forall ts, ts <> [] -> Forall (fun t => hasSpace t = false) ts ->
     JS.join ts = q -> ts = fractions q).
Proof.
  split; [apply fractions_keyword_args|]. split; [apply join_split|].
  split; [apply split_no_space|].
  intros ts Hne HF <-. unfold fractions. symmetry. now apply split_join.
Qed.

(** ** Which plugins are called, and how *)

Lemma callee_dispatch q p : callee (dispatch q p) = p.
Proof.
  unfold dispatch. destruct (display q p); [reflexivity|].
  destruct (negb (truthy (keyword p))); reflexivity.
Qed.

Lemma callees_are_matched q ps :
  List.map callee (route q ps) = matchedPlugins q ps.
Proof.
  destruct (matchedPlugins q ps) as [|m ms] eqn:Em.
  - now rewrite fallback_makes_no_call.
  - rewrite route_matched by (rewrite Em; discriminate).
    rewrite List.map_map, <- Em.
    rewrite (List.map_ext _ (fun p => p) (callee_dispatch q)).
    apply List.map_id.
Qed.

Lemma keyword_of_callee q ps c :
  In c (route q ps) ->
  In (callee c) ps /\
  (truthy (keyword (callee c)) = true ->
   keyword (callee c) = Some (keywordOf q)).
Proof.
  intros Hc.
  assert (Hin : In (callee c) (matchedPlugins q ps)).
  { rewrite <- callees_are_matched. now apply in_map. }
  apply matchedPlugins_In in Hin. destruct Hin as [Hps Hm].
  split; [exact Hps|]. intros Ht. unfold matchesKeyword in Hm.
  rewrite Ht in Hm. simpl in Hm. unfold strictEq in Hm.
  destruct (keyword (callee c)) as [k|]; [|discriminate].
  apply String.eqb_eq in Hm. now subst.
Qed.

(** X2. The calls of a query go to exactly the plugins that pass the
    keyword filter, once each and in registry order; in particular a
    plugin whose keyword is set and differs from the first token is
    never called. *)
Theorem calls_follow_matched_plugins q ps :
  List.map callee (route q ps) = matchedPlugins q ps /\
  (forall c, In c (route q ps) ->
     In (callee c) ps /\
     (truthy (keyword (callee c)) = true ->
      keyword (callee c) = Some (keywordOf q))).
Proof.
  split; [apply callees_are_matched|apply keyword_of_callee].
Qed.

(** X3. A plugin without a keyword is called on every query, in results
    mode and with the full token list, whether or not it is a core
    plugin. *)
Theorem keywordless_plugin_always_queried q ps p :
  In p ps -> truthy (keyword p) = false ->
  In (queryResults p (fractions q)) (route q ps).
Proof.
  intros Hin Hk.
  assert (Hm : In p (matchedPlugins q ps)).
  { apply matchedPlugins_In. split; [assumption|].
    unfold matchesKeyword. now rewrite Hk. }
  rewrite route_matched by (intros E; rewrite E in Hm; contradiction).
  replace (queryResults p (fractions q)) with (dispatch q p).
  - now apply in_map.
  - unfold dispatch, display. rewrite Hk. simpl.
    destruct (isCore p && matchesKeyword q p); reflexivity.
Qed.

(** X4. What a call can look like.  A helper call carries the first
    token and goes to a non-core plugin whose keyword is that token, and
    only when nothing is left of the rest of the phrase after [trim];
    a results call carries either all tokens, for a plugin without a
    keyword, or the tokens after the first, for a plugin whose keyword
    is the first token. *)
Theorem shape_of_calls q ps c :
  In c (route q ps) ->
  match c with
  | queryHelper p kw =>
      kw = keywordOf q /\ isCore p = false /\
      keyword p = Some (keywordOf q) /\ queryString q = ""
  | queryResults p a =>
      (truthy (keyword p) = false /\ a = fractions q) \/
      (keyword p = Some (keywordOf q) /\ a = args q)
  end.
Proof.
  intros Hc.
  destruct (keyword_of_callee q ps c Hc) as [_ Hkw].
  assert (Hne : matchedPlugins q ps <> []).
  { intros E. rewrite (fallback_makes_no_call _ _ E) in Hc. contradiction. }
  rewrite route_matched in Hc by assumption.
  apply in_map_iff in Hc. destruct Hc as (p & <- & Hp).
  rewrite callee_dispatch in Hkw.
  apply matchedPlugins_In in Hp. destruct Hp as [_ Hm].
  unfold dispatch, display. rewrite Hm, andb_true_r.
  destruct (isCore p) eqn:Ecore.
  - destruct (truthy (keyword p)) eqn:Et; simpl; [right|left]; auto.
  - destruct (truthy (keyword p)) eqn:Et; simpl.
    + destruct (String.length (queryString q)) eqn:El; simpl.
      * repeat split; auto. destruct (queryString q); [reflexivity|discriminate].
      * right. auto.
    + left. auto.
Qed.

(** ** The run of the query handler *)

Section RunFacts.
Variable score : string -> string -> Q.
Variable MAX_RESULTS : nat.
Variable provider : Call -> Provided.

Lemma issue_prefix cs :
  exists rest, cs = fst (issue provider cs) ++ rest.
Proof.
  induction cs as [|c cs [rest IH]]; simpl; [now exists []|].
  destruct (provider c); [|now exists cs].
  destruct (issue provider cs) as [made ps]. simpl in *.
  exists rest. now rewrite IH at 1.
Qed.

Lemma issue_no_throw cs :
  Forall (fun c => provider c <> Threw) cs -> fst (issue provider cs) = cs.
Proof.
  induction 1 as [|c cs Hc _ IH]; simpl; [reflexivity|].
  destruct (provider c); [|contradiction].
  destruct (issue provider cs) as [made ps]. simpl in *. now rewrite IH.
Qed.

Lemma invoked_issue q ps :
  invoked (handleQueryCommand score MAX_RESULTS provider q ps)
  = fst (issue provider (route q ps)).
Proof.
  unfold handleQueryCommand. destruct (issue provider (route q ps)). reflexivity.
Qed.

Lemma sort_total kw l :
  Forall (fun i => title i <> None) l ->
  exists s, JS.sort (compareScore score kw) l = Some s.
Proof.
  induction 1 as [|x l Hx HF [s Hs]]; simpl; [eauto|]. rewrite Hs.
  assert (Hall : Forall (fun i => title i <> None) s).
  { rewrite List.Forall_forall in *. intros i Hi. apply HF.
    eapply Permutation_in; [symmetry; exact (sort_perm _ _ _ Hs)|exact Hi]. }
  clear Hs HF. induction Hall as [|y s Hy _ [r Hr]]; simpl; [eauto|].
  unfold compareScore at 1, titleScore.
  destruct (title x); [|contradiction]. destruct (title y); [|contradiction].
  match goal with |- context [(?c <=? 0)%Z] => destruct (c <=? 0)%Z end;
    [eauto|]. rewrite Hr. eauto.
Qed.

Lemma filter_defined kw l :
  Forall (fun i => title i <> None) l ->
  exists r, JS.filter (keepItem score kw) l = Some r.
Proof.
  induction 1 as [|x l Hx _ [r Hr]]; simpl; [eauto|].
  unfold keepItem at 1, titleScore. destruct (title x); [|contradiction].
  rewrite Hr. eauto.
Qed.
End RunFacts.

(** X6. The calls are made one after the other in routing order: the
    calls made are always a prefix of the routed ones, and unless a call
    throws every routed call is made, also after a promise has
    rejected. *)
Theorem calls_made_in_order score MAX_RESULTS provider q ps :
  (exists rest,
     route q ps =
     invoked (handleQueryCommand score MAX_RESULTS provider q ps) ++ rest) /\
  (Forall (fun c => provider c <> Threw) (route q ps) ->
   invoked (handleQueryCommand score MAX_RESULTS provider q ps) = route q ps).
Proof.
  rewrite invoked_issue. split; [apply issue_prefix|apply issue_no_throw].
Qed.

(** X7. The handler sends a result exactly when at least one call was
    routed, every routed call resolved and every aggregated item has a
    title; in every other case it sends nothing. *)
Theorem delivers_iff score MAX_RESULTS provider q ps :
  delivered (handleQueryCommand score MAX_RESULTS provider q ps) <> None <->
  route q ps <> [] /\
  Forall (resolves provider) (route q ps) /\
  Forall (fun i => title i <> None) (aggregated provider q ps).
Proof.
  split.
  - intros Hd.
    destruct (delivered (handleQueryCommand score MAX_RESULTS provider q ps))
      as [out|] eqn:E; [|contradiction].
    destruct (delivered_inv _ _ _ _ _ _ E) as (_ & HF & Hr).
    destruct (rank_inv _ _ _ _ _ Hr) as (sorted & Hne & Hs & Ht & _).
    split; [|split; [exact HF|]].
    + intros E'. rewrite E' in Hne. now apply Hne.
    + rewrite List.Forall_forall in *. intros i Hi.
      apply (Permutation_in _ (sort_perm _ _ _ Hs)) in Hi.
      destruct (Ht _ Hi) as [s Hsc]. unfold titleScore in Hsc.
      destruct (title i); [discriminate|discriminate].
  - intros (Hne & HF & Ht).
    rewrite (handle_all_resolved _ _ _ _ _ HF). simpl.
    unfold rank. rewrite reduce_concat.
    destruct (List.map (itemsOf provider) (route q ps)) as [|r rs] eqn:Em.
    { destruct (route q ps); [contradiction|discriminate]. }
    rewrite <- Em. fold (aggregated provider q ps).
    destruct (sort_total score (keywordOf q) _ Ht) as [s Hs]. rewrite Hs.
    assert (Hts : Forall (fun i => title i <> None) s).
    { rewrite List.Forall_forall in *. intros i Hi. apply Ht.
      eapply Permutation_in; [symmetry; exact (sort_perm _ _ _ Hs)|exact Hi]. }
    destruct (filter_defined score (keywordOf q) _ Hts) as [k Hk]. rewrite Hk.
    discriminate.
Qed.

(** ** What is delivered *)

Lemma sorted_cut {A} (R : A -> A -> Prop) n l a b :
  StronglySorted R l -> In a (firstn n l) -> In b (skipn n l) -> R a b.
Proof.
  intros Hs. revert n. induction Hs as [|x l Hs IH HF]; intros n Ha Hb.
  - rewrite firstn_nil in Ha. contradiction.
  - destruct n as [|n]; simpl in *; [contradiction|].
    destruct Ha as [<-|Ha]; [|eauto].
    rewrite List.Forall_forall in HF. apply HF.
    rewrite <- (firstn_skipn n l). apply in_or_app. now right.
Qed.

Section SortedFacts.
Variable score : string -> string -> Q.
Variable kw : string.

Lemma sort_of_sorted l :
  StronglySorted (precedes score kw) l ->
  JS.sort (compareScore score kw) l = Some l.
Proof.
  induction 1 as [|x l Hs IH HF]; simpl; [reflexivity|]. rewrite IH.
  destruct l as [|y l]; simpl; [reflexivity|].
  inversion HF as [|? ? (sx & sy & Hx & Hy & Hle) _]; subst.
  destruct (compareScore_spec score kw x y sx sy Hx Hy) as (c & Hc & Hiff).
  rewrite Hc. now rewrite (proj2 Hiff Hle).
Qed.

Lemma filter_of_kept l :
  Forall (fun i => kept score kw i = true) l ->
  JS.filter (keepItem score kw) l = Some l.
Proof.
  induction 1 as [|x l Hx _ IH]; simpl; [reflexivity|].
  unfold kept in Hx. destruct (keepItem score kw x) as [b|]; [|discriminate].
  subst b. now rewrite IH.
Qed.

Lemma same_score_sorted v l :
  Forall (fun i => hasScore score kw v i = true) l ->
  StronglySorted (precedes score kw) l.
Proof.
  induction 1 as [|x l Hx HF IH]; constructor; [assumption|].
  eapply List.Forall_impl; [|exact HF]. intros y Hy.
  unfold hasScore in Hx, Hy.
  destruct (titleScore score kw x) as [sx|] eqn:Ex; [|discriminate].
  destruct (titleScore score kw y) as [sy|] eqn:Ey; [|discriminate].
  apply Qeq_bool_iff in Hx, Hy. exists sx, sy. repeat split; trivial.
  rewrite Hx, Hy. apply Qle_refl.
Qed.
End SortedFacts.

(** X8. Whatever the providers return, at most [MAX_RESULTS] items are
    delivered, and never more than were aggregated. *)
Theorem delivered_length_bounded score MAX_RESULTS provider q ps out :
  delivered (handleQueryCommand score MAX_RESULTS provider q ps) = Some out ->
  List.length out <= MAX_RESULTS /\
  List.length out <= List.length (aggregated provider q ps).
Proof.
  intros Hd. apply delivered_inv in Hd. destruct Hd as (_ & _ & Hr).
  destruct (rank_inv _ _ _ _ _ Hr) as (sorted & _ & Hs & _ & ->).
  fold (aggregated provider q ps) in Hs.
  split; [apply firstn_le_length|].
  rewrite (Permutation_length (sort_perm _ _ _ Hs)).
  rewrite length_firstn.
  pose proof (List.filter_length_le (kept score (keywordOf q)) sorted). lia.
Qed.

(** X9. The handler invents, duplicates and reorders nothing beyond its
    ranking: the delivered items followed by the items that were cut are
    a rearrangement of the aggregated items that pass the filter, and no
    item that was cut may stand before a delivered one, so the cut never
    drops an item in favour of one with a lower score. *)
Theorem cut_keeps_the_best score MAX_RESULTS provider q ps out :
  delivered (handleQueryCommand score MAX_RESULTS provider q ps) = Some out ->
  exists cut,
    Permutation (out ++ cut)
      (List.filter (kept score (keywordOf q)) (aggregated provider q ps)) /\
    (forall a b, In a out -> In b cut -> precedes score (keywordOf q) a b).
Proof.
  intros Hd. apply delivered_inv in Hd. destruct Hd as (_ & _ & Hr).
  destruct (rank_inv _ _ _ _ _ Hr) as (sorted & _ & Hs & HF & ->).
  fold (aggregated provider q ps) in Hs.
  exists (skipn MAX_RESULTS (List.filter (kept score (keywordOf q)) sorted)).
  split.
  - rewrite firstn_skipn. apply filter_perm. symmetry. exact (sort_perm _ _ _ Hs).
  - intros a b Ha Hb.
    apply (sorted_cut _ MAX_RESULTS
             (List.filter (kept score (keywordOf q)) sorted)); trivial.
    apply sorted_filter.
    apply (sort_sorted score (keywordOf q) (aggregated provider q ps)); [|exact Hs].
    rewrite List.Forall_forall in *. intros i Hi. apply HF.
    eapply Permutation_in; [exact (sort_perm _ _ _ Hs)|exact Hi].
Qed.

(** X10. Ranking is idempotent: handing a delivered list back to the
    callback as the only provider result returns it unchanged. *)
Theorem rank_idempotent score MAX_RESULTS kw rs out :
  rank score MAX_RESULTS kw rs = Some out ->
  rank score MAX_RESULTS kw [out] = Some out.
Proof.
  intros Hr.
  destruct (rank_inv _ _ _ _ _ Hr) as (sorted & _ & Hs & HF & ->).
  set (out := firstn MAX_RESULTS (List.filter (kept score kw) sorted)).
  assert (Hsorted : StronglySorted (precedes score kw) out).
  { apply sorted_firstn, sorted_filter.
    apply (sort_sorted score kw (List.concat rs)); [|exact Hs].
    rewrite List.Forall_forall in *. intros i Hi. apply HF.
    eapply Permutation_in; [exact (sort_perm _ _ _ Hs)|exact Hi]. }
  assert (Hkept : Forall (fun i => kept score kw i = true) out).
  { apply List.Forall_forall. intros i Hi.
    apply firstn_In, filter_In in Hi. tauto. }
  unfold rank. simpl. unfold JS.concat. 
  rewrite (sort_of_sorted _ _ _ Hsorted), (filter_of_kept _ _ _ Hkept).
  unfold JS.slice0. f_equal. apply firstn_all2. apply firstn_le_length.
Qed.

Lemma filter_one_class score kw v l :
  Forall (fun i => hasScore score kw v i = true) l ->
  List.filter (kept score kw) l = if keptAt v then l else [].
Proof.
  induction 1 as [|x l Hx _ IH]; simpl; [now destruct (keptAt v)|].
  rewrite (kept_of_class _ _ _ _ Hx), IH. now destruct (keptAt v).
Qed.

(** X11. When all aggregated items have one and the same score, as with
    a keyword that matches none of them, the ranking does not reorder:
    the first [MAX_RESULTS] aggregated items are delivered in provider
    order if that score is 0 or above 0.25, and the empty list
    otherwise. *)
Theorem equal_scores_keep_provider_order score MAX_RESULTS provider q ps out v :
  delivered (handleQueryCommand score MAX_RESULTS provider q ps) = Some out ->
  Forall (fun i => hasScore score (keywordOf q) v i = true)
         (aggregated provider q ps) ->
  out = firstn MAX_RESULTS
          (if keptAt v then aggregated provider q ps else []).
Proof.
  intros Hd Hall. apply delivered_inv in Hd. destruct Hd as (_ & _ & Hr).
  destruct (rank_inv _ _ _ _ _ Hr) as (sorted & _ & Hs & _ & ->).
  fold (aggregated provider q ps) in Hs.
  rewrite (sort_of_sorted _ _ _ (same_score_sorted _ _ _ _ Hall)) in Hs.
  injection Hs as <-. now rewrite (filter_one_class _ _ _ _ Hall).
Qed.


(** ** The detail handler over whole runs *)

Lemma remove_nth_length {A} n (l : list A) x :
  nth_error l n = Some x -> S (List.length (remove_nth n l)) = List.length l.
Proof.
  revert n. induction l as [|y l IH]; intros [|n] H; simpl in *;
    try discriminate; [reflexivity|]. now rewrite (IH _ H).
Qed.

Lemma answered_snoc_retrieved t item :
  answered t = true -> answered (t ++ [Retrieved item]) = true.
Proof.
  remember (List.length t) as n eqn:Hn. revert t Hn.
  induction n as [n IH] using lt_wf_ind. intros t Hn Ht.
  destruct t as [|e t]; [reflexivity|].
  destruct e as [i|c k h|h]; simpl in *; [|..|discriminate].
  - apply (IH (List.length t)); [lia|reflexivity|assumption].
  - destruct t as [|e' t]; [discriminate|].
    destruct e' as [i|c' k' h'|h']; try discriminate. simpl in *.
    apply andb_true_iff in Ht. destruct Ht as [He Ht]. rewrite He. simpl.
    apply (IH (List.length t)); [lia|reflexivity|assumption].
Qed.

Lemma answered_snoc_response t c k h :
  answered t = true -> answered (t ++ [CacheSet c k h; Sent h]) = true.
Proof.
  remember (List.length t) as n eqn:Hn. revert t Hn.
  induction n as [n IH] using lt_wf_ind. intros t Hn Ht.
  destruct t as [|e t]; [simpl; now rewrite String.eqb_refl|].
  destruct e as [i|c' k' h'|h']; simpl in *; [|..|discriminate].
  - apply (IH (List.length t)); [lia|reflexivity|assumption].
  - destruct t as [|e' t]; [discriminate|].
    destruct e' as [i|c'' k'' h''|h'']; try discriminate. simpl in *.
    apply andb_true_iff in Ht. destruct Ht as [He Ht]. rewrite He. simpl.
    apply (IH (List.length t)); [lia|reflexivity|assumption].
Qed.

Section RunOfDetails.
Variable JSON_stringify : Item -> string.
Variable basename : string -> string.

Local Abbreviation handle := (handleItemDetailsRequest JSON_stringify basename).
Local Abbreviation step := (step JSON_stringify basename).
Local Abbreviation run := (run JSON_stringify basename).

Lemma requests_keep_cache s ls :
  forallb isRequest ls = true -> cache (run s ls) = cache s.
Proof.
  revert s. induction ls as [|l ls IH]; intros s H; simpl in *; [reflexivity|].
  apply andb_true_iff in H. destruct H as [Hl Hls].
  rewrite (IH _ Hls). destruct l; [apply handle_cache|discriminate].
Qed.

Lemma miss_calls_plugin s item p d :
  plugin item = Some p ->
  CacheConf.has (cache s) (configNameOf basename p) (JSON_stringify item) = false ->
  trace (handle item d s) = trace s ++ [Retrieved item].
Proof.
  intros Hp Hh. unfold handleItemDetailsRequest. rewrite Hp, Hh.
  destruct d; reflexivity.
Qed.

Lemma step_counts s l :
  List.length (List.filter isSent (trace (step s l)))
  + List.length (pending (step s l))
  <= List.length (List.filter isSent (trace s)) + List.length (pending s)
     + (if isRequest l then 1 else 0) /\
  List.length (List.filter isRetrieved (trace (step s l)))
  <= List.length (List.filter isRetrieved (trace s))
     + (if isRequest l then 1 else 0).
Proof.
  destruct l as [item d|n]; simpl.
  - unfold handleItemDetailsRequest. destruct (plugin item); [|lia].
    destruct (CacheConf.has _ _ _); simpl.
    + rewrite List.length_app. simpl. lia.
    + destruct d; simpl; rewrite ?List.filter_app, ?List.length_app; simpl; lia.
  - destruct (nth_error (pending s) n) as [r|] eqn:Hn; [|lia]. simpl.
    rewrite !List.filter_app, !List.length_app. simpl.
    pose proof (remove_nth_length _ _ _ Hn). lia.
Qed.

Lemma run_counts s ls :
  List.length (List.filter isSent (trace (run s ls)))
  + List.length (pending (run s ls))
  <= List.length (List.filter isSent (trace s)) + List.length (pending s)
     + List.length (List.filter isRequest ls) /\
  List.length (List.filter isRetrieved (trace (run s ls)))
  <= List.length (List.filter isRetrieved (trace s))
     + List.length (List.filter isRequest ls).
Proof.
  revert s. induction ls as [|l ls IH]; intros s; simpl; [lia|].
  destruct (IH (step s l)) as [H1 H2]. destruct (step_counts s l) as [H3 H4].
  destruct (isRequest l); simpl; lia.
Qed.

Lemma step_answered s l :
  answered (trace s) = true -> answered (trace (step s l)) = true.
Proof.
  intros H. destruct l as [item d|n]; simpl.
  - unfold handleItemDetailsRequest. destruct (plugin item); [|assumption].
    destruct (CacheConf.has _ _ _); simpl; [assumption|].
    destruct d; simpl; now apply answered_snoc_retrieved.
  - destruct (nth_error (pending s) n); [|assumption]. simpl.
    now apply answered_snoc_response.
Qed.

Lemma run_answered s ls :
  answered (trace s) = true -> answered (trace (run s ls)) = true.
Proof.
  revert s. induction ls as [|l ls IH]; intros s H; simpl; [assumption|].
  apply IH. now apply step_answered.
Qed.

Lemma step_sourced (P : string -> string -> string -> Prop) s l :
  sourced P s ->
  (forall item p v, l = Request item (Content v) -> plugin item = Some p ->
     P (configNameOf basename p) (JSON_stringify item) v) ->
  sourced P (step s l).
Proof.
  intros [Hc Hp] Hl. destruct l as [item d|n]; simpl.
  - split; [now rewrite handle_cache|].
    unfold handleItemDetailsRequest. destruct (plugin item) as [p|] eqn:Ep; [|assumption].
    destruct (CacheConf.has _ _ _) eqn:Eh; simpl.
    + apply List.Forall_app. split; [assumption|]. constructor; [|constructor].
      simpl. apply Hc. now apply has_entry.
    + destruct d as [v| |]; simpl; try assumption.
      apply List.Forall_app. split; [assumption|]. constructor; [|constructor].
      simpl. now apply (Hl item p v).
  - destruct (nth_error (pending s) n) as [r|] eqn:Hn; [|now split].
    assert (Hr : P (r_configName r) (r_cacheKey r) (r_html r)).
    { rewrite List.Forall_forall in Hp. apply Hp. eapply nth_error_In; eauto. }
    split; simpl.
    + intros c k v. rewrite entry_set.
      destruct (decide (r_configName r = c /\ r_cacheKey r = k)) as [[<- <-]|_].
      * now intros [= <-].
      * apply Hc.
    + now apply remove_nth_Forall.
Qed.

Lemma run_sourced pre ls s :
  sourced (offered JSON_stringify basename pre) s ->
  sourced (offered JSON_stringify basename (pre ++ ls)) (run s ls).
Proof.
  revert pre s. induction ls as [|l ls IH]; intros pre s H; simpl.
  - now rewrite app_nil_r.
  - replace (pre ++ l :: ls) with ((pre ++ [l]) ++ ls)
      by (now rewrite <- app_assoc).
    apply IH. apply step_sourced.
    + destruct H as [Hc Hp].
      assert (Hmono : forall c k v, offered JSON_stringify basename pre c k v ->
                                    offered JSON_stringify basename (pre ++ [l]) c k v).
      { intros c k v (item & p & Hin & Hrest). exists item, p.
        split; [apply in_or_app; now left|assumption]. }
      split; [intros c k v Hv; apply Hmono; now apply Hc|].
      eapply List.Forall_impl; [|exact Hp]. intros r Hr. now apply Hmono.
    + intros item p v -> Hp. exists item, p.
      split; [apply in_or_app; right; now left|auto].
Qed.
End RunOfDetails.

(** X12. The detail handler touches one cache entry at a time: a request
    changes no entry, and a callback changes none but the one of its own
    configuration name and key, so the details cached for other items
    and other plugins stay as they are. *)
Theorem other_entries_untouched JSON_stringify basename s l c k :
  (forall n r, l = Settle n -> nth_error (pending s) n = Some r ->
     ~ (r_configName r = c /\ r_cacheKey r = k)) ->
  CacheConf.entry (cache (step JSON_stringify basename s l)) c k
  = CacheConf.entry (cache s) c k.
Proof.
  intros H. destruct l as [item d|n]; simpl.
  - now rewrite handle_cache.
  - destruct (nth_error (pending s) n) as [r|] eqn:Hn; [|reflexivity].
    simpl. rewrite entry_set. rewrite decide_False; [reflexivity|].
    now apply (H n r).
Qed.

(** X13. There is no single flight: requests change no cache entry, so
    as long as no callback has run every further request for an item
    that is not cached calls the plugin's detail entry point again. *)
Theorem requests_before_callback_all_miss JSON_stringify basename s ls item p d :
  forallb isRequest ls = true ->
  plugin item = Some p ->
  CacheConf.has (cache s) (configNameOf basename p) (JSON_stringify item) = false ->
  cache (run JSON_stringify basename s ls) = cache s /\
  trace (handleItemDetailsRequest JSON_stringify basename item d
           (run JSON_stringify basename s ls))
  = trace (run JSON_stringify basename s ls) ++ [Retrieved item].
Proof.
  intros Hls Hp Hh.
  pose proof (requests_keep_cache JSON_stringify basename s ls Hls) as Hc.
  split; [exact Hc|]. apply miss_calls_plugin with p; [assumption|].
  now rewrite Hc.
Qed.

(** X14. A retrieval that throws or rejects is not cached and is never
    answered: the cache and the waiting callbacks are as before, and the
    same request made again calls the plugin again. *)
Theorem failed_retrieval_is_retried JSON_stringify basename s item p d d' :
  plugin item = Some p ->
  CacheConf.has (cache s) (configNameOf basename p) (JSON_stringify item) = false ->
  d = Failed \/ d = Raised ->
  let failed := handleItemDetailsRequest JSON_stringify basename item d s in
  cache failed = cache s /\ pending failed = pending s /\
  trace failed = trace s ++ [Retrieved item] /\
  trace (handleItemDetailsRequest JSON_stringify basename item d' failed)
  = trace s ++ [Retrieved item; Retrieved item].
Proof.
  intros Hp Hh Hd failed.
  assert (Hf : failed = mkState (cache s) (pending s) (trace s ++ [Retrieved item])).
  { unfold failed, handleItemDetailsRequest. rewrite Hp, Hh.
    destruct Hd as [-> | ->]; reflexivity. }
  rewrite Hf. simpl. repeat split.
  rewrite (miss_calls_plugin JSON_stringify basename _ item p d' Hp) by exact Hh.
  simpl. now rewrite <- app_assoc.
Qed.

(** X15. Counted over any run from the start, the responses sent and the
    callbacks still waiting together never exceed the requests made, so
    no request is answered twice; nor is the plugin's detail entry point
    called more often than there were requests. *)
Theorem at_most_one_response_per_request JSON_stringify basename ls :
  List.length (List.filter isSent (trace (run JSON_stringify basename initial ls)))
  + List.length (pending (run JSON_stringify basename initial ls))
  <= List.length (List.filter isRequest ls) /\
  List.length (List.filter isRetrieved
                 (trace (run JSON_stringify basename initial ls)))
  <= List.length (List.filter isRequest ls).
Proof.
  pose proof (run_counts JSON_stringify basename initial ls) as H.
  simpl in H. exact H.
Qed.

(** X16. In every run from the start each response directly follows the
    write of the very content it carries: nothing is ever sent that was
    not stored first. *)
Theorem every_response_follows_its_write JSON_stringify basename ls :
  answered (trace (run JSON_stringify basename initial ls)) = true.
Proof. now apply run_answered. Qed.

(** X17. The cache holds nothing of its own making: in every run from
    the start, each cached content, under whatever configuration name
    and key, is a content that the plugin returned to a request of the
    run for an item with that configuration name and key. *)
Theorem cached_content_came_from_plugin JSON_stringify basename ls c k v :
  CacheConf.entry (cache (run JSON_stringify basename initial ls)) c k = Some v ->
  offered JSON_stringify basename ls c k v.
Proof.
  intros H.
  assert (Hinit : sourced (offered JSON_stringify basename []) initial).
  { split; [|constructor]. intros c' k' v' E. unfold CacheConf.entry in E.
    simpl in E. rewrite lookup_empty in E. discriminate. }
  destruct (run_sourced JSON_stringify basename [] ls initial Hinit) as [Hc _].
  now apply Hc.
Qed.

(** ** The window *)

Lemma half_diff_floor a b :
  Qfloor (inject_Z a / 2 - inject_Z b / 2) = ((a - b) / 2)%Z.
Proof.
  unfold Qfloor, Qminus, Qplus, Qopp, Qdiv, Qmult, Qinv, inject_Z. simpl.
  change (Z.pos (1 * 2 * (1 * 2))) with (2 * 2)%Z.
  change (Z.pos (1 * 2)) with 2%Z.
  replace (a * 1 * 2 + - (b * 1) * 2)%Z with ((a - b) * 2)%Z by lia.
  now rewrite Z.div_mul_cancel_r by lia.
Qed.

(** X18. [repositionWindow] centres the window on the display under the
    cursor: horizontally the margins left and right of the window differ
    by at most one pixel, and vertically the same holds for the window
    taken together with the 710 pixels reserved for the results. *)
Theorem window_is_centred currScreen size :
  let x := (fst (repositionWindow currScreen size) - bounds_x currScreen)%Z in
  let y := (snd (repositionWindow currScreen size) - bounds_y currScreen)%Z in
  let right := (size_width currScreen - fst size - x)%Z in
  let below := (size_height currScreen - (snd size + WINDOW_MAX_HEIGHT) - y)%Z in
  (x <= right <= x + 1)%Z /\ (y <= below <= y + 1)%Z.
Proof.
  unfold repositionWindow. cbn [fst snd]. rewrite !half_diff_floor.
  pose proof (Z.div_mod (size_width currScreen - fst size) 2 ltac:(lia)) as Hx.
  pose proof (Z.mod_pos_bound (size_width currScreen - fst size) 2 ltac:(lia)).
  pose proof (Z.div_mod (size_height currScreen - (snd size + WINDOW_MAX_HEIGHT)) 2
                ltac:(lia)) as Hy.
  pose proof (Z.mod_pos_bound
                (size_height currScreen - (snd size + WINDOW_MAX_HEIGHT)) 2
                ltac:(lia)).
  lia.
Qed.

Lemma lookup_register k cb (reg : globalShortcut.registry) i :
  globalShortcut.register k cb reg !! i =
  if decide (k = i) then Some (default cb (reg !! k)) else reg !! i.
Proof.
  unfold globalShortcut.register. destruct (reg !! k) as [h|] eqn:E.
  - case_decide; [now subst|reflexivity].
  - rewrite lookup_insert. now case_decide.
Qed.

Lemma lookup_unregister k (reg : globalShortcut.registry) i :
  globalShortcut.unregister k reg !! i =
  if decide (k = i) then None else reg !! i.
Proof. unfold globalShortcut.unregister. apply lookup_delete. Qed.

(** X20. The shortcuts of the visible window are taken and given back as
    a whole.  After [handleWindowHide] none of the seven accelerators is
    bound, whatever was bound before; neither handler touches any other
    accelerator, such as the hot key that toggles the window; and when
    the seven are free, showing binds each of them and hiding after
    showing gives back the registry as it was. *)
Theorem shortcuts_taken_and_given_back (reg : globalShortcut.registry) :
  (forall k, In k windowShortcuts -> fst (handleWindowHide reg) !! k = None) /\
  (forall k, ~ In k windowShortcuts ->
     fst (handleWindowShow reg) !! k = reg !! k /\
     fst (handleWindowHide reg) !! k = reg !! k) /\
  ((forall k, In k windowShortcuts -> reg !! k = None) ->
   (forall k, In k windowShortcuts ->
      is_Some (fst (handleWindowShow reg) !! k)) /\
   fst (handleWindowShow reg) !! "escape" = Some hideWindow /\
   fst (handleWindowHide (fst (handleWindowShow reg))) = reg).
Proof.
  unfold handleWindowShow, handleWindowHide, windowShortcuts. simpl.
  split; [|split].
  - intros k Hk. rewrite !lookup_unregister.
    repeat (destruct Hk as [<-|Hk]; [reflexivity|]). contradiction.
  - intros k Hk. rewrite !lookup_register, !lookup_unregister.
    repeat (case_decide; [exfalso; apply Hk; subst; simpl; tauto|]).
    split; reflexivity.
  - intros Hfree. split; [|split].
    + intros k Hk. rewrite !lookup_register.
      repeat (destruct Hk as [<-|Hk]; [simpl; eauto|]). contradiction.
    + rewrite !lookup_register. simpl.
      rewrite (Hfree "escape") by (simpl; tauto). reflexivity.
    + apply map_eq. intros i.
      rewrite !lookup_unregister, !lookup_register.
      repeat (case_decide;
              [subst; symmetry; apply Hfree; simpl; tauto|]).
      reflexivity.
Qed.

(** X21. [execute] resolves the argument by modifier priority, as its
    comment says: the super-key argument when the super key is held and
    that argument is a non-empty string, else the alt-key argument under
    the same condition, else the item's own argument; an override that
    is absent or the empty string is passed over.  An action that is not
    among [actions] is not called at all. *)
Theorem execute_by_modifier_priority actions message :
  (m_action message ∈ actions ->
   execute actions message = Some (m_action message, resolveArg message)) /\
  (m_action message ∉ actions -> execute actions message = None) /\
  (m_isSuperMod message = true -> truthy (m_cmdArg message) = true ->
   resolveArg message = m_cmdArg message) /\
  (m_isSuperMod message = false \/ truthy (m_cmdArg message) = false ->
   m_isAltMod message = true -> truthy (m_altArg message) = true ->
   resolveArg message = m_altArg message) /\
  (m_isSuperMod message = false \/ truthy (m_cmdArg message) = false ->
   m_isAltMod message = false \/ truthy (m_altArg message) = false ->
   resolveArg message = m_itemArg message).
Proof.
  unfold execute, resolveArg, orValue, andValue.
  split; [intros H; now rewrite bool_decide_eq_true_2|].
  split; [intros H; now rewrite bool_decide_eq_false_2|].
  destruct (m_isSuperMod message), (m_isAltMod message),
    (truthy (m_cmdArg message)) eqn:Ec, (truthy (m_altArg message)) eqn:Ea;
    simpl; rewrite ?Ec, ?Ea; simpl; rewrite ?Ec, ?Ea;
    repeat split; intros; try reflexivity;
    repeat match goal with
           | H : _ \/ _ |- _ => destruct H
           end; congruence.
Qed.
End Proofs.

(** * The examples, with the sample engine *)

#[global] Existing Instance asciiEngine.

Example route_keyword_and_args :
  route "calc 2+2" [coreApps; calc] =
  [queryResults coreApps ["calc"; "2+2"]; queryResults calc ["2+2"]].
Proof. reflexivity. Qed.

Example route_keyword_alone :
  route "calc" [coreApps; calc] =
  [queryResults coreApps ["calc"]; queryHelper calc "calc"].
Proof. reflexivity. Qed.

Example route_keyword_and_blanks : route "calc  " [calc] = [queryHelper calc "calc"].
Proof. reflexivity. Qed.

(** C3, as stated, fails on a core plugin: [coreCalc] has a keyword, is
    matched by the query "calc", whose string after the keyword is
    empty, and is invoked in results mode. *)
Lemma core_keyword_plugin_gets_results :
  In coreCalc (matchedPlugins "calc" [coreCalc]) /\
  truthy (keyword coreCalc) = true /\
  queryString "calc" = "" /\
  route "calc" [coreCalc] = [queryResults coreCalc []] /\
  ~ In (queryHelper coreCalc (keywordOf "calc")) (route "calc" [coreCalc]).
Proof.
  repeat split; try (left; reflexivity).
  intros [H|[]]. discriminate.
Qed.

(** C4, as stated, fails once more items pass the filter than the list
    may hold: with [MAX_RESULTS] 1 and two aggregated items of score
    exactly 0, the second one is not delivered. *)
Lemma zero_score_item_cut_off :
  In (entryOf coreApps "b") (aggregated twoEntries "x" [coreApps]) /\
  titleScore exactScore (keywordOf "x") (entryOf coreApps "b") = Some 0%Q /\
  delivered (handleQueryCommand exactScore 1 twoEntries "x" [coreApps])
  = Some [entryOf coreApps "a"] /\
  ~ In (entryOf coreApps "b") [entryOf coreApps "a"].
Proof.
  repeat split.
  - right. left. reflexivity.
  - intros [H|[]]. discriminate.
Qed.

(** C9, as stated, fails: a batch of one well-formed item and one item
    without a title makes the ranking pass throw, and nothing is
    delivered. *)
Lemma untitled_item_blanks_batch :
  route "apps" [coreApps] = [queryResults coreApps ["apps"]] /\
  aggregated oneUntitled "apps" [coreApps] = [entryOf coreApps "apps"; untitled] /\
  title untitled = None /\
  delivered (handleQueryCommand exactScore 20 oneUntitled "apps" [coreApps]) = None.
Proof. repeat split. Qed.

(** C8, as stated, fails for the keyword: the handler lower-cases the
    title only and hands the keyword to the scorer as it was typed.
    "CALC" and "calc" differ only in letter case, and with a scorer that
    tells them apart the same title gets two different scores. *)
Lemma keyword_case_changes_score :
  String_toLowerCase "CALC" = String_toLowerCase "calc" /\
  keywordOf "CALC 2+2" = "CALC" /\
  titleScore exactScore (keywordOf "calc 2+2") (entryOf calc "Calc") = Some 1%Q /\
  titleScore exactScore (keywordOf "CALC 2+2") (entryOf calc "Calc") = Some 0%Q /\
  ~ (1 == 0)%Q.
Proof. repeat split. discriminate. Qed.

Lemma keyword_plugin_mode_witness :
  In (dispatch "calc" calc) (route "calc" [coreApps; calc; coreCalc]) /\
  dispatch "calc" calc = queryHelper calc "calc".
Proof.
  destruct (keyword_plugin_mode "calc" [coreApps; calc; coreCalc] calc)
    as (Hin & Hhelper & _).
  - vm_compute. right. left. reflexivity.
  - reflexivity.
  - split; [exact Hin|]. apply Hhelper; reflexivity.
Defined.

Lemma provider_failure_fails_join_witness :
  In (queryHelper calc "calc") (route "calc" [coreApps; calc]) /\
  helperRejects (queryHelper calc "calc") = Returned Rejected /\
  delivered (handleQueryCommand exactScore 20 helperRejects "calc" [coreApps; calc])
  = None.
Proof.
  assert (Hin : In (queryHelper calc "calc") (route "calc" [coreApps; calc]))
    by (right; left; reflexivity).
  split; [exact Hin|]. split; [reflexivity|].
  exact (provider_failure_fails_join exactScore 20 helperRejects "calc"
           [coreApps; calc] (queryHelper calc "calc") Hin (or_intror eq_refl)).
Defined.

Lemma delivered_pass_filter_witness :
  delivered (handleQueryCommand exactScore 20 twoEntries "x" [coreApps])
  = Some [entryOf coreApps "a"; entryOf coreApps "b"] /\
  passesFilter exactScore (keywordOf "x") (entryOf coreApps "b") /\
  In (entryOf coreApps "b") [entryOf coreApps "a"; entryOf coreApps "b"].
Proof.
  assert (Hd : delivered (handleQueryCommand exactScore 20 twoEntries "x" [coreApps])
               = Some [entryOf coreApps "a"; entryOf coreApps "b"])
    by reflexivity.
  assert (Hp : passesFilter exactScore (keywordOf "x") (entryOf coreApps "b")).
  { exists 0%Q. split; [reflexivity|]. left. reflexivity. }
  split; [exact Hd|]. split; [exact Hp|].
  destruct (delivered_pass_filter exactScore 20 twoEntries "x" [coreApps] _ Hd)
    as (_ & Hback & _).
  apply Hback.
  - vm_compute. lia.
  - right. left. reflexivity.
  - exact Hp.
Defined.

Lemma delivered_sorted_stable_witness :
  delivered
    (handleQueryCommand exactScore 20 helperRejects "calc 2+2" [coreApps; calc])
  = Some [entryOf coreApps "Calc"; entryOf calc "Calc"; entryOf coreApps "a";
          entryOf coreApps "b"; entryOf calc "a"; entryOf calc "b"] /\
  StronglySorted (precedes exactScore "calc")
    [entryOf coreApps "Calc"; entryOf calc "Calc"; entryOf coreApps "a";
     entryOf coreApps "b"; entryOf calc "a"; entryOf calc "b"] /\
  exists rest,
    List.filter (hasScore exactScore "calc" 0)
      (aggregated helperRejects "calc 2+2" [coreApps; calc])
    = [entryOf coreApps "a"; entryOf coreApps "b"; entryOf calc "a";
       entryOf calc "b"] ++ rest.
Proof.
  assert (Hd : delivered
                 (handleQueryCommand exactScore 20 helperRejects "calc 2+2"
                    [coreApps; calc])
               = Some [entryOf coreApps "Calc"; entryOf calc "Calc";
                       entryOf coreApps "a"; entryOf coreApps "b";
                       entryOf calc "a"; entryOf calc "b"])
    by reflexivity.
  split; [exact Hd|].
  destruct (delivered_sorted_stable exactScore 20 helperRejects "calc 2+2"
              [coreApps; calc] _ Hd) as (Hsorted & Hstable & _).
  split; [exact Hsorted|]. exact (Hstable 0%Q).
Defined.

Lemma untitled_item_fails_batch_witness :
  In untitled (aggregated oneUntitled "apps" [coreApps]) /\
  delivered (handleQueryCommand exactScore 20 oneUntitled "apps" [coreApps]) = None.
Proof.
  assert (Hin : In untitled (aggregated oneUntitled "apps" [coreApps]))
    by (right; left; reflexivity).
  split; [exact Hin|].
  exact (untitled_item_fails_batch exactScore 20 oneUntitled "apps" [coreApps]
           untitled Hin eq_refl).
Defined.

Lemma title_case_is_ignored_witness :
  option_Forall2 (Forall2 sameButTitleCase)
    (rank exactScore 20 "calc"
       [[mkItem (Some "a") "1" (Some calc); mkItem (Some "Calc") "2" (Some calc)]])
    (rank exactScore 20 "calc"
       [[mkItem (Some "A") "1" (Some calc); mkItem (Some "cALC") "2" (Some calc)]]).
Proof.
  apply (title_case_is_ignored exactScore 20 "calc"
    [[mkItem (Some "a") "1" (Some calc); mkItem (Some "Calc") "2" (Some calc)]]
    [[mkItem (Some "A") "1" (Some calc); mkItem (Some "cALC") "2" (Some calc)]]).
  repeat (constructor; try (unfold sameButTitleCase; simpl; repeat split)).
Defined.

Lemma cached_details_not_retrieved_witness :
  nth_error (pending asked22) 0
  = Some (mkReaction "/plugins/calc-itemDetails" "2+2" "<b>4</b>") /\
  exists html,
    trace (handleItemDetailsRequest keyOfArg wholePath (entryOf calc "2+2")
             (Content "<i>4</i>")
             (run keyOfArg wholePath stored22
                [Request (entryOf calc "1+1") (Content "<b>2</b>"); Settle 0]))
    = trace (run keyOfArg wholePath stored22
               [Request (entryOf calc "1+1") (Content "<b>2</b>"); Settle 0]) /\
    (Forall (agrees "/plugins/calc-itemDetails" "2+2" "<b>4</b>") (pending stored22) ->
     html = "<b>4</b>").
Proof.
  split; [reflexivity|].
  destruct (cached_details_not_retrieved keyOfArg wholePath asked22 0
              (mkReaction "/plugins/calc-itemDetails" "2+2" "<b>4</b>")
              [Request (entryOf calc "1+1") (Content "<b>2</b>"); Settle 0]
              (entryOf calc "2+2") calc (Content "<i>4</i>")
              eq_refl eq_refl eq_refl eq_refl)
    as (_ & html & _ & Htrace & _ & _ & Hsame).
  exists html. split; [exact Htrace|exact Hsame].
Defined.

Lemma keywordless_plugin_always_queried_witness :
  In (queryResults coreApps (fractions "xyz hello"))
     (route "xyz hello" [calc; coreApps]).
Proof.
  apply (keywordless_plugin_always_queried "xyz hello" [calc; coreApps] coreApps).
  - right. left. reflexivity.
  - reflexivity.
Defined.

Lemma shape_of_calls_witness :
  keyword calc = Some (keywordOf "calc") /\ queryString "calc" = "".
Proof.
  destruct (shape_of_calls "calc" [coreApps; calc] (queryHelper calc "calc"))
    as (_ & _ & Hk & Hq).
  - right. left. reflexivity.
  - split; [exact Hk|exact Hq].
Defined.

Lemma delivered_length_bounded_witness :
  List.length [entryOf coreApps "a"] <= 1.
Proof.
  exact (proj1 (delivered_length_bounded exactScore 1 twoEntries "x" [coreApps]
                  [entryOf coreApps "a"] eq_refl)).
Defined.

Lemma cut_keeps_the_best_witness :
  exists cut,
    Permutation ([entryOf coreApps "a"] ++ cut)
      (List.filter (kept exactScore (keywordOf "x"))
         (aggregated twoEntries "x" [coreApps])) /\
    (forall a b, In a [entryOf coreApps "a"] -> In b cut ->
       precedes exactScore (keywordOf "x") a b).
Proof.
  exact (cut_keeps_the_best exactScore 1 twoEntries "x" [coreApps]
           [entryOf coreApps "a"] eq_refl).
Defined.

Lemma rank_idempotent_witness :
  rank exactScore 2 "calc" [[entryOf calc "Calc"; entryOf calc "a"]]
  = Some [entryOf calc "Calc"; entryOf calc "a"].
Proof.
  exact (rank_idempotent exactScore 2 "calc"
           [[entryOf calc "a"; entryOf calc "b"]; [entryOf calc "Calc"]]
           [entryOf calc "Calc"; entryOf calc "a"] eq_refl).
Defined.

Lemma equal_scores_keep_provider_order_witness :
  [entryOf coreApps "a"; entryOf coreApps "b"]
  = firstn 20 (if keptAt 0 then aggregated twoEntries "x" [coreApps] else []).
Proof.
  apply (equal_scores_keep_provider_order (engine := asciiEngine) exactScore 20 twoEntries "x" [coreApps]
           [entryOf coreApps "a"; entryOf coreApps "b"] 0%Q eq_refl).
  repeat constructor.
Defined.

Lemma other_entries_untouched_witness :
  CacheConf.entry
    (cache (step keyOfArg wholePath
              (handleItemDetailsRequest keyOfArg wholePath (entryOf calc "1+1")
                 (Content "<b>2</b>") stored22)
              (Settle 0)))
    "/plugins/calc-itemDetails" "2+2"
  = CacheConf.entry
      (cache (handleItemDetailsRequest keyOfArg wholePath (entryOf calc "1+1")
                (Content "<b>2</b>") stored22))
      "/plugins/calc-itemDetails" "2+2".
Proof.
  apply (other_entries_untouched keyOfArg wholePath
           (handleItemDetailsRequest keyOfArg wholePath (entryOf calc "1+1")
              (Content "<b>2</b>") stored22)
           (Settle 0) "/plugins/calc-itemDetails" "2+2").
  intros n r [= <-] [= <-] [_ Hk]. discriminate.
Defined.

Lemma requests_before_callback_all_miss_witness :
  trace (handleItemDetailsRequest keyOfArg wholePath (entryOf calc "2+2")
           (Content "<i>4</i>")
           (run keyOfArg wholePath initial
              [Request (entryOf calc "2+2") (Content "<b>4</b>")]))
  = [Retrieved (entryOf calc "2+2"); Retrieved (entryOf calc "2+2")].
Proof.
  exact (proj2 (requests_before_callback_all_miss keyOfArg wholePath initial
                  [Request (entryOf calc "2+2") (Content "<b>4</b>")]
                  (entryOf calc "2+2") calc (Content "<i>4</i>")
                  eq_refl eq_refl eq_refl)).
Defined.

Lemma failed_retrieval_is_retried_witness :
  trace (handleItemDetailsRequest keyOfArg wholePath (entryOf calc "2+2")
           (Content "<b>4</b>")
           (handleItemDetailsRequest keyOfArg wholePath (entryOf calc "2+2")
              Failed initial))
  = trace initial ++ [Retrieved (entryOf calc "2+2"); Retrieved (entryOf calc "2+2")].
Proof.
  exact (proj2 (proj2 (proj2
    (failed_retrieval_is_retried keyOfArg wholePath initial (entryOf calc "2+2")
       calc Failed (Content "<b>4</b>") eq_refl eq_refl (or_introl eq_refl))))).
Defined.

Lemma cached_content_came_from_plugin_witness :
  offered keyOfArg wholePath
    [Request (entryOf calc "2+2") (Content "<b>4</b>"); Settle 0]
    "/plugins/calc-itemDetails" "2+2" "<b>4</b>".
Proof.
  exact (cached_content_came_from_plugin keyOfArg wholePath
           [Request (entryOf calc "2+2") (Content "<b>4</b>"); Settle 0]
           "/plugins/calc-itemDetails" "2+2" "<b>4</b>" eq_refl).
Defined.

Lemma response_is_what_the_cache_holds_witness :
  CacheConf.has (cache stored22) "/plugins/calc-itemDetails" "2+2" = true /\
  (pending (handleItemDetailsRequest keyOfArg wholePath (entryOf calc "2+2")
              (Content "<i>4</i>") stored22)
   = (pending stored22 ++
      [mkReaction "/plugins/calc-itemDetails" "2+2" "<b>4</b>"])) /\
  (trace (step keyOfArg wholePath
            (handleItemDetailsRequest keyOfArg wholePath (entryOf calc "2+2")
               (Content "<i>4</i>") stored22)
            (Settle (List.length (pending stored22))))
   = (trace (handleItemDetailsRequest keyOfArg wholePath (entryOf calc "2+2")
               (Content "<i>4</i>") stored22) ++
      [CacheSet "/plugins/calc-itemDetails" "2+2" "<b>4</b>"; Sent "<b>4</b>"])).
Proof.
  split; [reflexivity|].
  destruct (response_is_what_the_cache_holds keyOfArg wholePath stored22
              (entryOf calc "2+2") calc (Content "<i>4</i>") "<b>4</b>"
              eq_refl eq_refl)
    as (_ & Hpending & _ & Htrace & _).
  split; [exact Hpending|exact Htrace].
Defined.
